(** * dockforward: port forwarding and service-state synchronisation

    A shallow embedding of the Go package [pkg] (Docker client, SSH
    forwarding registry, display handlers) together with the properties
    of the engine that are stated about it.

    Go strings are byte strings: they are modelled by [string] (lists of
    [ascii]).  Go maps are modelled by [gmap]; Go [int] by [Z].  The [error]
    interface is modelled by [option string] ([None] is [nil]). *)

From stdpp Require Import gmap strings list sorting pretty.
From Stdlib Require Import ZArith Ascii String.

Open Scope string_scope.
Open Scope list_scope.

(* ===================================================================== *)
(** * Part I: definitions                                                 *)
(* ===================================================================== *)

(** ** The [strings], [strconv] and [sort] library functions in use *)

Module GoStrings.

(** [strings.HasPrefix s prefix]. *)
Definition HasPrefix (s prefix : string) : bool := String.prefix prefix s.

(** [strings.Contains s substr]: [substr] starts at some offset of [s]. *)
Fixpoint Contains (s substr : string) : bool :=
  HasPrefix s substr ||
  match s with
  | EmptyString => false
  | String _ s' => Contains s' substr
  end.

(** [strings.TrimPrefix s prefix]. *)
Definition TrimPrefix (s prefix : string) : string :=
  if HasPrefix s prefix
  then String.substring (String.length prefix)
                        (String.length s - String.length prefix) s
  else s.

(** [strings.Split s sep] for a separator of one byte. The result always
    has at least one element. *)
Fixpoint Split (s : string) (sep : ascii) : list string :=
  match s with
  | EmptyString => [EmptyString]
  | String a s' =>
      if Ascii.eqb a sep then EmptyString :: Split s' sep
      else match Split s' sep with
           | x :: xs => String a x :: xs
           | [] => [String a EmptyString]
           end
  end.

(** [strconv.Itoa]: decimal digits, with a leading minus sign for a
    negative number. *)
Definition Itoa (i : Z) : string := pretty i.

(** The order [<=] of Go strings: lexicographic on bytes. *)
Definition string_le (s1 s2 : string) : Prop := String.leb s1 s2 = true.
Definition string_lt (s1 s2 : string) : Prop := String.ltb s1 s2 = true.

#[global] Instance string_le_dec s1 s2 : Decision (string_le s1 s2).
Proof. unfold string_le. apply _. Defined.

(** [sort.Strings]: the slice is put in increasing order. Which sorting
    algorithm runs cannot be seen in the result, since the order is total
    and antisymmetric (see [Strings_unique]). *)
Definition Strings (l : list string) : list string := merge_sort string_le l.

End GoStrings.
Import GoStrings.

(** ** types.go *)

Record Port := mkPort {
  IP : string;
  PrivatePort : Z;
  PublicPort : Z;
  Type_ : string
}.

Record Container := mkContainer {
  ID : string;
  Names : list string;
  State : string;
  Status : string;
  Ports : list Port
}.

Record ServiceStatus := mkServiceStatus {
  Name : string;
  ExposedPorts : list string;
  HealthStatus : string;
  ForwardStatus : string;
  LocalPorts : list string;
  Conflicts : list string
}.

Definition StatusNotForwarded := "Not forwarded".
Definition StatusForwarded := "Forwarded".
Definition StatusReady := "Ready".
Definition StatusError := "Error".
Definition StatusConflict := "Conflict".

Definition HealthHealthy := "Healthy".
Definition HealthUnhealthy := "Unhealthy".
Definition HealthStarting := "Starting".
Definition HealthRunning := "Running".
Definition HealthRestarting := "Restarting".
Definition HealthCreated := "Created".
Definition HealthRemoving := "Removing".
Definition HealthPaused := "Paused".
Definition HealthExited := "Exited".
Definition HealthDead := "Dead".
Definition HealthUnknown := "Unknown".

(** ** docker.go: pure helpers *)

(** [parseContainerState]: the [switch] on the raw state, with the two
    substring tests on the status text in the order of the source. *)
Definition parseContainerState (state status : string) : string :=
  if String.eqb state "running" then
    if Contains status "healthy" then HealthHealthy
    else if Contains status "unhealthy" then HealthUnhealthy
    else HealthRunning
  else if String.eqb state "created" then HealthCreated
  else if String.eqb state "restarting" then HealthRestarting
  else if String.eqb state "removing" then HealthRemoving
  else if String.eqb state "paused" then HealthPaused
  else if String.eqb state "exited" then HealthExited
  else if String.eqb state "dead" then HealthDead
  else HealthUnknown.

(** One round of the first loop of [extractPorts]. *)
Definition extractPorts_step (portMap : gmap string bool) (port : Port)
  : gmap string bool :=
  if decide (PublicPort port ≠ 0%Z)
  then <[Itoa (PublicPort port) := true]> portMap
  else portMap.

(** First loop of [extractPorts]: the map [portMap]. *)
Definition extractPorts_portMap (ports : list Port) : gmap string bool :=
  foldl extractPorts_step ∅ ports.

(** The idiom [for k := range m { result = append(result, k) }] followed by
    [sort.Strings(result)], for one order [keys] in which [range] may yield
    the keys of the map. *)
Definition range_keys_sorted (keys : list string) : list string :=
  Strings (foldl (fun result k => result ++ [k]) [] keys).

(** [extractPorts], with the keys yielded in the order of [map_to_list]
    (the order does not matter, see [extractPorts_any_order]). *)
Definition extractPorts (ports : list Port) : list string :=
  range_keys_sorted (map_to_list (extractPorts_portMap ports)).*1.

(** The exposed-port list in the words of the specification: the public
    ports that are present, without duplicates, in increasing numerical
    order, printed in decimal. *)
Definition extractPorts_numeric (ports : list Port) : list string :=
  Itoa <$> merge_sort Z.le
             (remove_dups (filter (fun p => p ≠ 0%Z) (PublicPort <$> ports))).

(** ** ssh.go: the forwarding registry *)

(** The [error] interface: [None] is [nil], [Some msg] an error that
    prints as [msg]. *)
Definition error := option string.

Record SSHClient := mkSSHClient {
  user : string;
  host : string;
  ports : gmap string string   (* remote port -> local port *)
}.

Definition set_ports (s : SSHClient) (m : gmap string string) : SSHClient :=
  {| user := user s; host := host s; ports := m |}.

(** What [ForwardPort] touches outside the [SSHClient] value: the
    goroutines it has started and the local processes. A goroutine of
    [ForwardPort] is a [Task]: it is about to call [Run] ([Starting]), it
    waits in [Run] for the process [pid] ([Running pid]), or it has
    returned ([Ended]). The programs are not part of the repository; the
    model assumes of them that [ssh -L l:localhost:r ... -N] is a process
    bound to the local port [l], that [lsof -ti :p] prints the ids of the
    processes bound to [p], one per line, and fails when there is none,
    and that [kill] given one process id ends that process. *)
Inductive TaskState := Starting | Running (pid : nat) | Ended.

Record Task := mkTask {
  cmdArgs : list string;
  t_remotePort : string;
  t_localPort : string;
  t_state : TaskState
}.

Record Proc := mkProc { p_pid : nat; p_port : string }.

Record Runtime := mkRuntime {
  tasks : list Task;
  procs : list Proc;
  next_pid : nat;
  logs : list string           (* lines written by log.Printf *)
}.

Definition set_tasks (rt : Runtime) (ts : list Task) : Runtime :=
  {| tasks := ts; procs := procs rt; next_pid := next_pid rt; logs := logs rt |}.
Definition set_procs (rt : Runtime) (ps : list Proc) : Runtime :=
  {| tasks := tasks rt; procs := ps; next_pid := next_pid rt; logs := logs rt |}.
Definition log_Printf (rt : Runtime) (line : string) : Runtime :=
  {| tasks := tasks rt; procs := procs rt; next_pid := next_pid rt;
     logs := logs rt ++ [line] |}.

(** [lsof -ti :port]: the ids of the processes bound to [port]. *)
Definition lsof_ti (rt : Runtime) (port : string) : list nat :=
  p_pid <$> filter (fun p => p_port p = port) (procs rt).

(** [kill pid]. *)
Definition kill (rt : Runtime) (pid : nat) : Runtime :=
  set_procs rt (filter (fun p => p_pid p ≠ pid) (procs rt)).

(** Lines 91-98 of ssh.go: the output of [lsof -ti :remotePort], trimmed,
    is handed to [kill] as ONE argument. No output is an error of [lsof]
    (nothing is killed); several lines are not a process id ([kill] fails
    and its error is dropped). *)
Definition kill_existing_forward (rt : Runtime) (remotePort : string) : Runtime :=
  match lsof_ti rt remotePort with
  | [pid] => kill rt pid
  | _ => rt
  end.

(** Lines 102-124 of [ForwardPort]: record the mapping, build the command
    line, start the goroutine. *)
Definition ForwardPort_start (s : SSHClient) (rt : Runtime)
    (remotePort localPort : string) : SSHClient * Runtime * error :=
  let s' := set_ports s (<[remotePort := localPort]> (ports s)) in
  let host := default "" (head (Split (host s) ":"%char)) in
  let cmd := "ssh -L " +:+ localPort +:+ ":localhost:" +:+ remotePort +:+ " "
             +:+ user s +:+ "@" +:+ host +:+ " -N" in
  let cmdArgs := Split cmd " "%char in
  let task := {| cmdArgs := cmdArgs; t_remotePort := remotePort;
                 t_localPort := localPort; t_state := Starting |} in
  (s', set_tasks rt (tasks rt ++ [task]), None).

(** [SSHClient.ForwardPort]. *)
Definition ForwardPort (s : SSHClient) (rt : Runtime)
    (remotePort localPort : string) : SSHClient * Runtime * error :=
  let localPort := if String.eqb localPort "" then remotePort else localPort in
  match ports s !! remotePort with
  | Some mappedPort =>
      if String.eqb mappedPort localPort then (s, rt, None)
      else
        let rt1 := kill_existing_forward rt remotePort in
        let s1 := set_ports s (delete remotePort (ports s)) in
        ForwardPort_start s1 rt1 remotePort localPort
  | None => ForwardPort_start s rt remotePort localPort
  end.

(** One move of the goroutine started by [ForwardPort] (lines 112-122),
    named by the index of its task:
    - [ExecStart i]: [Run] starts the process;
    - [ExitOk i]: the process ends with status 0, [Run] returns [nil] and
      the [for] loop goes round;
    - [ExitErr i e]: [Run] returns the error [e] (the process could not be
      started, ended with a failure status, or was killed): the goroutine
      logs, removes the registry entry of its remote port and returns. *)
Inductive Event :=
| ExecStart (i : nat)
| ExitOk (i : nat)
| ExitErr (i : nat) (e : string).

Definition set_task_state (t : Task) (st : TaskState) : Task :=
  {| cmdArgs := cmdArgs t; t_remotePort := t_remotePort t;
     t_localPort := t_localPort t; t_state := st |}.

Definition goroutine_step (ev : Event) (s : SSHClient) (rt : Runtime)
  : option (SSHClient * Runtime) :=
  match ev with
  | ExecStart i =>
      match tasks rt !! i with
      | Some t =>
          match t_state t with
          | Starting =>
              let pid := next_pid rt in
              Some (s, {| tasks := <[i := set_task_state t (Running pid)]> (tasks rt);
                          procs := procs rt ++ [mkProc pid (t_localPort t)];
                          next_pid := S pid;
                          logs := logs rt |})
          | _ => None
          end
      | None => None
      end
  | ExitOk i =>
      match tasks rt !! i with
      | Some t =>
          match t_state t with
          | Running pid =>
              if bool_decide (pid ∈ p_pid <$> procs rt) then
                Some (s, set_tasks (kill rt pid)
                                   (<[i := set_task_state t Starting]> (tasks rt)))
              else None
          | _ => None
          end
      | None => None
      end
  | ExitErr i e =>
      match tasks rt !! i with
      | Some t =>
          let fail rt0 :=
            let rt1 := log_Printf rt0
                         ("Port forwarding for " +:+ t_remotePort t +:+ " -> "
                          +:+ t_localPort t +:+ " failed, retrying: " +:+ e) in
            Some (set_ports s (delete (t_remotePort t) (ports s)),
                  set_tasks rt1 (<[i := set_task_state t Ended]> (tasks rt1))) in
          match t_state t with
          | Starting => fail rt
          | Running pid => fail (kill rt pid)
          | Ended => None
          end
      | None => None
      end
  end.

(** A run of goroutine moves. *)
Fixpoint goroutine_run (evs : list Event) (s : SSHClient) (rt : Runtime)
  : option (SSHClient * Runtime) :=
  match evs with
  | [] => Some (s, rt)
  | ev :: evs' =>
      match goroutine_step ev s rt with
      | Some (s', rt') => goroutine_run evs' s' rt'
      | None => None
      end
  end.

(** The live sessions of a remote port: the goroutines started for it
    that have not returned. *)
Definition is_live (t : Task) : bool :=
  match t_state t with Ended => false | _ => true end.

Definition live_sessions (rt : Runtime) (remotePort : string) : list Task :=
  filter (fun t => t_remotePort t = remotePort ∧ is_live t = true) (tasks rt).

(** [IsPortInUse]. *)
Fixpoint IsPortInUse (port : string) (localPorts : list string) : bool :=
  match localPorts with
  | [] => false
  | p :: rest => if String.eqb p port then true else IsPortInUse port rest
  end.

(** What a call does besides returning: Go code may panic, and a loop may
    never end. *)
Inductive Outcome (A : Type) :=
| Returns (a : A)
| Panics (msg : string)
| Diverges.
Arguments Returns {A} a.
Arguments Panics {A} msg.
Arguments Diverges {A}.

(** [strconv.Atoi]: an optional sign and at least one decimal digit, the
    value within the 64-bit [int]; anything else is an error ([None]). *)
Definition is_digit (c : ascii) : bool :=
  (48 <=? nat_of_ascii c)%nat && (nat_of_ascii c <=? 57)%nat.

Fixpoint digits_value (s : string) (acc : Z) : option Z :=
  match s with
  | EmptyString => Some acc
  | String c s' =>
      if is_digit c
      then digits_value s' (10 * acc + (Z.of_nat (nat_of_ascii c) - 48))%Z
      else None
  end.

Definition MaxInt : Z := (2 ^ 63 - 1)%Z.
Definition MinInt : Z := (- 2 ^ 63)%Z.

Definition Atoi (s : string) : option Z :=
  let '(neg, body) :=
    match s with
    | String c r =>
        if Ascii.eqb c "-" then (true, r)
        else if Ascii.eqb c "+" then (false, r)
        else (false, s)
    | EmptyString => (false, s)
    end in
  match body with
  | EmptyString => None
  | _ =>
      match digits_value body 0 with
      | Some v =>
          let z := if neg : bool then (- v)%Z else v in
          if bool_decide (MinInt ≤ z ≤ MaxInt)%Z then Some z else None
      | None => None
      end
  end.

(** The calls [ForwardPort(portStr, portMap[portStr])] of [ForwardPorts]
    for a list of remote ports, stopping at the first error. A key that is
    not in [portMap] reads as the empty string. *)
Fixpoint ForwardPorts_each (s : SSHClient) (rt : Runtime)
    (remotePorts : list string) (portMap : gmap string string)
  : SSHClient * Runtime * error :=
  match remotePorts with
  | [] => (s, rt, None)
  | portStr :: rest =>
      let localPort := default "" (portMap !! portStr) in
      match ForwardPort s rt portStr localPort with
      | (s', rt', Some e) =>
          (s', rt', Some ("error forwarding port " +:+ portStr +:+ " -> "
                          +:+ localPort +:+ ": " +:+ e))
      | (s', rt', None) => ForwardPorts_each s' rt' rest portMap
      end
  end.

(** The loop of [SSHClient.ForwardPorts] over the exposed ports. In the
    range branch [for i := start; i <= end; i++] runs over
    [start .. end]; with [end] the largest [int] the counter wraps round
    and the condition never fails, and as [ForwardPort] returns no error
    the loop does not end. *)
Fixpoint ForwardPorts_loop (s : SSHClient) (rt : Runtime)
    (exposed : list string) (portMap : gmap string string)
  : Outcome (SSHClient * Runtime * error) :=
  match exposed with
  | [] => Returns (s, rt, None)
  | remotePort :: rest =>
      if Contains remotePort "-" then
        match Split remotePort "-"%char with
        | [a; b] =>
            match Atoi a, Atoi b with
            | Some start, Some end_ =>
                if bool_decide (start ≤ end_ ∧ end_ = MaxInt)%Z then Diverges
                else
                  match ForwardPorts_each s rt
                          (Itoa <$> seqZ start (end_ - start + 1)) portMap with
                  | (s', rt', Some e) => Returns (s', rt', Some e)
                  | (s', rt', None) => ForwardPorts_loop s' rt' rest portMap
                  end
            | _, _ => ForwardPorts_loop s rt rest portMap
            end
        | _ => ForwardPorts_loop s rt rest portMap
        end
      else
        match ForwardPorts_each s rt [remotePort] portMap with
        | (s', rt', Some e) => Returns (s', rt', Some e)
        | (s', rt', None) => ForwardPorts_loop s' rt' rest portMap
        end
  end.

(** [SSHClient.ForwardPorts]. *)
Definition ForwardPorts (s : SSHClient) (rt : Runtime)
    (service : ServiceStatus) (portMap : gmap string string)
  : Outcome (SSHClient * Runtime * error) :=
  ForwardPorts_loop s rt (ExposedPorts service) portMap.

(** ** docker.go: the Docker client *)

Definition set_ForwardStatus (service : ServiceStatus) (st : string) : ServiceStatus :=
  {| Name := Name service; ExposedPorts := ExposedPorts service;
     HealthStatus := HealthStatus service; ForwardStatus := st;
     LocalPorts := LocalPorts service; Conflicts := Conflicts service |}.

Definition set_Conflicts (service : ServiceStatus) (c : list string) : ServiceStatus :=
  {| Name := Name service; ExposedPorts := ExposedPorts service;
     HealthStatus := HealthStatus service; ForwardStatus := ForwardStatus service;
     LocalPorts := LocalPorts service; Conflicts := c |}.

(** The loop of [forwardPorts]: [Some (port, e)] when [ForwardPort] failed
    with [e] at [port], where the function returns at once. *)
Fixpoint forwardPorts_loop (s : SSHClient) (rt : Runtime) (exposed : list string)
  : SSHClient * Runtime * option (string * string) :=
  match exposed with
  | [] => (s, rt, None)
  | port :: rest =>
      let localPort := port in
      match ForwardPort s rt localPort port with
      | (s', rt', Some e) => (s', rt', Some (port, e))
      | (s', rt', None) => forwardPorts_loop s' rt' rest
      end
  end.

(** [DockerClient.forwardPorts]. The service is a pointer in the source;
    here the service as it is after the call is returned. *)
Definition forwardPorts (s : SSHClient) (rt : Runtime) (service : ServiceStatus)
  : SSHClient * Runtime * ServiceStatus * error :=
  match forwardPorts_loop s rt (ExposedPorts service) with
  | (s', rt', Some (port, e)) =>
      (s', rt', set_ForwardStatus service StatusError,
       Some ("failed to forward port " +:+ port +:+ ": " +:+ e))
  | (s', rt', None) =>
      (s', rt', set_ForwardStatus service StatusForwarded, None)
  end.

(** What [http.Get] and the JSON decoder hand to [GetServices]. *)
Inductive Response :=
| TransportError (e : string)
| DecodeError (e : string)
| Decoded (containers : list Container).

(** The loop of [GetServices] over the decoded records. [Names[0]] panics
    on an empty slice. The map holds a pointer to the service, so that it
    shows the status written by [forwardPorts] after the insertion. *)
Fixpoint GetServices_loop (s : SSHClient) (rt : Runtime)
    (containers : list Container) (services : gmap string ServiceStatus)
  : SSHClient * Runtime * Outcome (gmap string ServiceStatus) :=
  match containers with
  | [] => (s, rt, Returns services)
  | container :: rest =>
      match Names container with
      | [] => (s, rt, Panics "runtime error: index out of range [0] with length 0")
      | name0 :: _ =>
          let name := TrimPrefix name0 "/" in
          let ports := extractPorts (Ports container) in
          let health := parseContainerState (State container) (Status container) in
          let service := {| Name := name; ExposedPorts := ports;
                            HealthStatus := health;
                            ForwardStatus := StatusNotForwarded;
                            LocalPorts := []; Conflicts := [] |} in
          match forwardPorts s rt service with
          | (s', rt', service', err) =>
              let rt'' := match err with
                          | Some e => log_Printf rt' ("Failed to forward ports for "
                                                      +:+ name +:+ ": " +:+ e)
                          | None => rt'
                          end in
              GetServices_loop s' rt'' rest (<[name := service']> services)
          end
      end
  end.

(** [DockerClient.GetServices]: the pair [(services, err)] it returns, or
    a panic. *)
Definition GetServices (s : SSHClient) (rt : Runtime) (resp : Response)
  : SSHClient * Runtime * Outcome (option (gmap string ServiceStatus) * error) :=
  match resp with
  | TransportError e =>
      (s, rt, Returns (None, Some ("failed to query Docker API: " +:+ e)))
  | DecodeError e =>
      (s, rt, Returns (None, Some ("failed to decode Docker API response: " +:+ e)))
  | Decoded containers =>
      match GetServices_loop s rt containers ∅ with
      | (s', rt', Returns services) => (s', rt', Returns (Some services, None))
      | (s', rt', Panics msg) => (s', rt', Panics msg)
      | (s', rt', Diverges) => (s', rt', Diverges)
      end
  end.

Record DockerClient := mkDockerClient {
  apiPort : Z;
  services : gmap string ServiceStatus;
  portMappings : gmap string (gmap string string)
                 (* service name -> remote port -> local port *)
}.

(** [NewDockerClient]: both maps start empty. *)
Definition NewDockerClient (port : Z) : DockerClient :=
  {| apiPort := port; services := ∅; portMappings := ∅ |}.

(** [DockerClient.UpdateServices]. *)
Definition UpdateServices (d : DockerClient) (svcs : gmap string ServiceStatus)
  : DockerClient :=
  {| apiPort := apiPort d; services := svcs; portMappings := portMappings d |}.

(** What [GetLocalInUsePorts] returns: an error, or the listening ports
    read off the output of [lsof]. *)
Inductive LocalScan :=
| ScanFailed (e : string)
| Listening (localPorts : list string).

(** One round of the loop of [UpdateForwardingStatus] over the exposed
    ports of a service, on the [conflicts] map and the status. *)
Definition UpdateForwardingStatus_step (localPorts : list string)
    (acc : gmap string bool * string) (port : string)
  : gmap string bool * string :=
  let '(conflicts, status) := acc in
  if IsPortInUse port localPorts
  then (<[port := true]> conflicts, StatusConflict)
  else if negb (String.eqb status StatusConflict)
       then (conflicts, StatusReady)
       else (conflicts, status).

(** The loop, from the empty map and the status Forwarded. *)
Definition UpdateForwardingStatus_ports (localPorts exposed : list string)
  : gmap string bool * string :=
  foldl (UpdateForwardingStatus_step localPorts) (∅, StatusForwarded) exposed.

Definition UpdateForwardingStatus_service (localPorts : list string)
    (service : ServiceStatus) : ServiceStatus :=
  let '(conflicts, status) :=
    UpdateForwardingStatus_ports localPorts (ExposedPorts service) in
  set_Conflicts (set_ForwardStatus service status)
                (range_keys_sorted (map_to_list conflicts).*1).

(** [DockerClient.UpdateForwardingStatus]: every service of the map is
    updated in place. *)
Definition UpdateForwardingStatus (d : DockerClient) (scan : LocalScan)
  : DockerClient * error :=
  match scan with
  | ScanFailed e => (d, Some ("error getting local ports: " +:+ e))
  | Listening localPorts =>
      ({| apiPort := apiPort d;
          services := UpdateForwardingStatus_service localPorts <$> services d;
          portMappings := portMappings d |}, None)
  end.

(** [contains] of display.go. *)
Fixpoint contains (slice : list string) (item : string) : bool :=
  match slice with
  | [] => false
  | x :: rest => if String.eqb x item then true else contains rest item
  end.

(** [removeString]: the first element equal to [s] is cut out. *)
Fixpoint removeString (slice : list string) (s : string) : list string :=
  match slice with
  | [] => []
  | v :: rest => if String.eqb v s then rest else v :: removeString rest s
  end.

(** [DockerClient.RemapPort]. The service is a pointer in the source; the
    service as it is after the call is returned with the client and the
    error. *)
Definition RemapPort (d : DockerClient) (service : ServiceStatus)
    (remotePort localPort : string) : DockerClient * ServiceStatus * error :=
  let pm := match portMappings d !! Name service with
            | Some _ => portMappings d
            | None => <[Name service := ∅]> (portMappings d)
            end in
  let inner := default ∅ (pm !! Name service) in
  let pm' := <[Name service := <[remotePort := localPort]> inner]> pm in
  let service1 :=
    if contains (Conflicts service) remotePort
    then set_Conflicts service (removeString (Conflicts service) remotePort)
    else service in
  let service2 := set_ForwardStatus service1 StatusReady in
  ({| apiPort := apiPort d; services := services d; portMappings := pm' |},
   service2, None).

(** [DockerClient.GetPortMapping]. *)
Definition GetPortMapping (d : DockerClient) (serviceName remotePort : string)
  : string :=
  match portMappings d !! serviceName with
  | Some mappings =>
      match mappings !! remotePort with
      | Some localPort => localPort
      | None => remotePort
      end
  | None => remotePort
  end.

(** ** display.go and screens.go: the callers *)

Record DisplayManager := mkDisplayManager {
  selectedService : option ServiceStatus;     (* [None] is the nil pointer *)
  selectedIndex : Z;
  currentServices : list ServiceStatus
}.

(** [DisplayManager.UpdateServices]: the services with ports, sorted by
    name (the names are the keys of the map, hence distinct). *)
Definition Display_UpdateServices (dm : DisplayManager)
    (svcs : gmap string ServiceStatus) : DisplayManager :=
  let withPorts :=
    filter (fun sv => (0 < List.length (ExposedPorts sv))%nat) (map_to_list svcs).*2 in
  {| selectedService := selectedService dm;
     selectedIndex := selectedIndex dm;
     currentServices :=
       merge_sort (fun a b => string_le (Name a) (Name b)) withPorts |}.

(** The whole engine: the SSH client shared by the Docker client and the
    screens, the goroutines and processes, the Docker client, the display. *)
Record World := mkWorld {
  ssh : SSHClient;
  rt : Runtime;
  docker : DockerClient;
  display : DisplayManager
}.

(** [LandingScreen.updateServices], the body of the poll loop, for a
    screen whose Docker client is set. *)
Definition updateServices (w : World) (resp : Response) : Outcome World :=
  match GetServices (ssh w) (rt w) resp with
  | (s', rt', Returns (_, Some err)) =>
      Returns {| ssh := s';
                 rt := log_Printf rt' ("Error fetching services: " +:+ err);
                 docker := docker w; display := display w |}
  | (s', rt', Returns (svcs, None)) =>
      let svcs := default ∅ svcs in
      Returns {| ssh := s'; rt := rt';
                 docker := UpdateServices (docker w) svcs;
                 display := Display_UpdateServices (display w) svcs |}
  | (_, _, Panics msg) => Panics msg
  | (_, _, Diverges) => Diverges
  end.

(** [DisplayManager.handleRemapPort]. *)
Definition handleRemapPort (w : World) (port newPort : string) (scan : LocalScan)
  : Outcome World :=
  match scan with
  | ScanFailed e =>
      Returns {| ssh := ssh w;
                 rt := log_Printf (rt w) ("Failed to get local ports: " +:+ e);
                 docker := docker w; display := display w |}
  | Listening localPorts =>
      if IsPortInUse newPort localPorts then
        Returns {| ssh := ssh w;
                   rt := log_Printf (rt w) ("New port " +:+ newPort
                                            +:+ " is already in use");
                   docker := docker w; display := display w |}
      else
        match selectedService (display w) with
        | None => Panics "runtime error: invalid memory address or nil pointer dereference"
        | Some sel =>
            match RemapPort (docker w) sel port newPort with
            | (d', sel', Some e) =>
                Returns {| ssh := ssh w;
                           rt := log_Printf (rt w) ("Failed to update port status: " +:+ e);
                           docker := d';
                           display := {| selectedService := Some sel';
                                         selectedIndex := selectedIndex (display w);
                                         currentServices := currentServices (display w) |} |}
            | (d', sel', None) =>
                let dm' := {| selectedService := Some sel';
                              selectedIndex := selectedIndex (display w);
                              currentServices := currentServices (display w) |} in
                let portMap : gmap string string := <[port := newPort]> ∅ in
                match ForwardPorts (ssh w) (rt w) sel' portMap with
                | Returns (s', rt', Some e) =>
                    Returns {| ssh := s';
                               rt := log_Printf rt' ("Failed to forward remapped port: " +:+ e);
                               docker := d'; display := dm' |}
                | Returns (s', rt', None) =>
                    Returns {| ssh := s'; rt := rt'; docker := d'; display := dm' |}
                | Panics msg => Panics msg
                | Diverges => Diverges
                end
            end
        end
  end.

(** The engine at start: [NewSSHClient] and [NewDockerClient] give empty
    maps, no goroutine has been started, nothing is selected. *)
Definition NewSSHClient (user host : string) : SSHClient :=
  {| user := user; host := host; ports := ∅ |}.

Definition NewRuntime (procs : list Proc) (next : nat) : Runtime :=
  {| tasks := []; procs := procs; next_pid := next; logs := [] |}.

Definition NewWorld (user host : string) (port : Z) : World :=
  {| ssh := NewSSHClient user host;
     rt := NewRuntime [] 1;
     docker := NewDockerClient port;
     display := {| selectedService := None; selectedIndex := 0;
                   currentServices := [] |} |}.

(** The precedence that [UpdateForwardingStatus] follows, read off its
    loop: the status after the loop, from the status [st] at its start
    (the loop starts from Forwarded). *)
Definition status_after (localPorts exposed : list string) (st : string) : string :=
  if existsb (fun p => IsPortInUse p localPorts) exposed then StatusConflict
  else if String.eqb st StatusConflict then StatusConflict
  else match exposed with [] => st | _ :: _ => StatusReady end.

(** A history of [RemapPort] calls on a client, each with the service it
    is called on, the remote port and the new local port. The port
    mappings are written by [RemapPort] only. *)
Definition remap_all (d : DockerClient)
    (calls : list (ServiceStatus * string * string)) : DockerClient :=
  foldl (fun d '(service, remotePort, localPort) =>
           (RemapPort d service remotePort localPort).1.1) d calls.

(** ** The conflict set as the specification words it *)

(** A local port is held by one of the engine's own sessions when the
    registry forwards some remote port to it. *)
Definition own_session (s : SSHClient) (localPort : string) : Prop :=
  ∃ remotePort, ports s !! remotePort = Some localPort.

(** In the words of the specification: the local mapping of the remote
    port (from the port mappings, the port itself by default) is among the
    listening ports, and that listener is not one of the engine's own
    sessions. *)
Definition in_conflict_spec (d : DockerClient) (s : SSHClient)
    (service : ServiceStatus) (localPorts : list string) (remotePort : string)
  : Prop :=
  remotePort ∈ ExposedPorts service ∧
  GetPortMapping d (Name service) remotePort ∈ localPorts ∧
  ¬ own_session s (GetPortMapping d (Name service) remotePort).

(** ** Further helpers *)

(** Every byte of the string passes the test. *)
Fixpoint all_bytes (P : ascii -> bool) (s : string) : bool :=
  match s with
  | EmptyString => true
  | String c s' => P c && all_bytes P s'
  end.

(** The string has no byte [c]. *)
Definition no_byte (c : ascii) (s : string) : bool :=
  all_bytes (fun a => negb (Ascii.eqb a c)) s.

(** The service that [GetServices] makes of a record that has a name, as
    it is once [forwardPorts] has returned. *)
Definition service_of (container : Container) : ServiceStatus :=
  {| Name := TrimPrefix (default "" (head (Names container))) "/";
     ExposedPorts := extractPorts (Ports container);
     HealthStatus := parseContainerState (State container) (Status container);
     ForwardStatus := StatusForwarded;
     LocalPorts := [];
     Conflicts := [] |}.

(** The records entered one after the other under the names of their
    services: of two records with one name the later one stays. *)
Definition services_of (containers : list Container) : gmap string ServiceStatus :=
  foldl (fun m c => <[Name (service_of c) := service_of c]> m) ∅ containers.

(** The local port that [ForwardPorts] asks for a remote port: the entry of
    [portMap]; the remote port itself when there is no entry or the entry
    is empty (then [ForwardPort] takes the remote port). *)
Definition ForwardPorts_local (portMap : gmap string string) (remotePort : string)
  : string :=
  let localPort := default "" (portMap !! remotePort) in
  if String.eqb localPort "" then remotePort else localPort.

(** ** display.go: [truncateString] *)

(** [truncateString]. Lengths are byte counts. The slice expression
    [s[:maxLen-3]] panics when [maxLen-3] is negative (it cannot exceed the
    length here, as the function has returned for [len(s) <= maxLen]). *)
Definition truncateString (s : string) (maxLen : Z) : Outcome string :=
  if bool_decide (Z.of_nat (String.length s) ≤ maxLen)%Z then Returns s
  else if bool_decide (maxLen - 3 < 0)%Z
       then Panics "runtime error: slice bounds out of range"
       else Returns (String.substring 0 (Z.to_nat (maxLen - 3)) s +:+ "...").

(** ** config.go: the server list *)

Module Config.

Record ServerConfig := mkServerConfig {
  Name : string;
  Host : string;
  User : string;
  KeyPath : string
}.

Record Config := mkConfig {
  Servers : list ServerConfig;
  CurrentServer : string;
  DefaultServer : string
}.

(** The errors that the methods make themselves, and the error of [Save]
    handed on (writing the file is outside the model: what [Save] returns
    is an input). *)
Inductive ConfigError :=
| AlreadyExists (name : string)
| CannotRemoveDefault
| NotFound (name : string)
| SaveFailed (e : string).

Definition Save (saveErr : option string) : option ConfigError :=
  match saveErr with
  | Some e => Some (SaveFailed e)
  | None => None
  end.

(** [ServerConfig.isValid]. *)
Definition isValid (s : ServerConfig) : bool :=
  negb (String.eqb (Name s) "") && negb (String.eqb (Host s) "")
  && negb (String.eqb (User s) "") && negb (String.eqb (KeyPath s) "").

(** [Config.isServerNameValid]. *)
Fixpoint name_in (servers : list ServerConfig) (name : string) : bool :=
  match servers with
  | [] => false
  | server :: rest =>
      if String.eqb (Name server) name then true else name_in rest name
  end.

Definition isServerNameValid (c : Config) (name : string) : bool :=
  name_in (Servers c) name.

(** [Config.validateAndCleanup], statement by statement. *)
Definition validateAndCleanup (c : Config) : Config :=
  let c1 := {| Servers := List.filter isValid (Servers c);
               CurrentServer := CurrentServer c;
               DefaultServer := DefaultServer c |} in
  let c2 := if isServerNameValid c1 (DefaultServer c1) then c1
            else {| Servers := Servers c1; CurrentServer := CurrentServer c1;
                    DefaultServer := "" |} in
  let c3 := if isServerNameValid c2 (CurrentServer c2) then c2
            else {| Servers := Servers c2; CurrentServer := DefaultServer c2;
                    DefaultServer := DefaultServer c2 |} in
  match Servers c3 with
  | first :: _ =>
      if String.eqb (DefaultServer c3) ""
      then {| Servers := Servers c3; CurrentServer := Name first;
              DefaultServer := Name first |}
      else c3
  | [] => c3
  end.

(** The first server of a name. *)
Fixpoint find_server (servers : list ServerConfig) (name : string)
  : option ServerConfig :=
  match servers with
  | [] => None
  | server :: rest =>
      if String.eqb (Name server) name then Some server
      else find_server rest name
  end.


(** [Config.AddServer]: the configuration after the call and the error
    returned. *)
Definition AddServer (c : Config) (name host user keyPath : string)
    (saveErr : option string) : Config * option ConfigError :=
  if name_in (Servers c) name then (c, Some (AlreadyExists name))
  else
    let servers := Servers c ++ [mkServerConfig name host user keyPath] in
    let c' := if Nat.eqb (List.length servers) 1
              then {| Servers := servers; CurrentServer := name;
                      DefaultServer := name |}
              else {| Servers := servers; CurrentServer := CurrentServer c;
                      DefaultServer := DefaultServer c |} in
    (c', Save saveErr).

(** The loop of [RemoveServer]: the list without the first server of the
    name, if there is one. *)
Fixpoint remove_first (servers : list ServerConfig) (name : string)
  : option (list ServerConfig) :=
  match servers with
  | [] => None
  | server :: rest =>
      if String.eqb (Name server) name then Some rest
      else match remove_first rest name with
           | Some rest' => Some (server :: rest')
           | None => None
           end
  end.

(** [Config.RemoveServer]. *)
Definition RemoveServer (c : Config) (name : string) (saveErr : option string)
  : Config * option ConfigError :=
  if String.eqb name (DefaultServer c) then (c, Some CannotRemoveDefault)
  else
    match remove_first (Servers c) name with
    | Some servers =>
        ({| Servers := servers;
            CurrentServer := if String.eqb (CurrentServer c) name
                             then DefaultServer c else CurrentServer c;
            DefaultServer := DefaultServer c |},
         Save saveErr)
    | None => (c, Some (NotFound name))
    end.

(** [Config.SetCurrentServer]. *)
Definition SetCurrentServer (c : Config) (name : string) (saveErr : option string)
  : Config * option ConfigError :=
  if name_in (Servers c) name
  then ({| Servers := Servers c; CurrentServer := name;
           DefaultServer := DefaultServer c |}, Save saveErr)
  else (c, Some (NotFound name)).

(** [Config.SetDefaultServer]. *)
Definition SetDefaultServer (c : Config) (name : string) (saveErr : option string)
  : Config * option ConfigError :=
  if name_in (Servers c) name
  then ({| Servers := Servers c; CurrentServer := CurrentServer c;
           DefaultServer := name |}, Save saveErr)
  else (c, Some (NotFound name)).

(** Both selections name servers of the list. *)
Definition selections_valid (c : Config) : Prop :=
  name_in (Servers c) (DefaultServer c) = true ∧
  name_in (Servers c) (CurrentServer c) = true.

(** The server names are distinct. *)
Definition names_distinct (c : Config) : Prop := NoDup (Name <$> Servers c).

End Config.

(** ** ssh.go: reading the output of [lsof] *)

(** The ASCII white space of [strings.Fields]: tab, line feed, vertical
    tab, form feed, carriage return, space. *)
Definition is_ascii_space (c : ascii) : bool :=
  let n := nat_of_ascii c in
  ((9 <=? n)%nat && (n <=? 13)%nat) || Nat.eqb n 32.

(** The white space of [unicode.IsSpace] that takes two bytes in UTF-8:
    U+0085 (C2 85) and U+00A0 (C2 A0). *)
Definition is_space2 (c1 c2 : ascii) : bool :=
  Nat.eqb (nat_of_ascii c1) 194 &&
  (Nat.eqb (nat_of_ascii c2) 133 || Nat.eqb (nat_of_ascii c2) 160).

(** ... and three bytes: U+1680 (E1 9A 80), U+2000 to U+200A (E2 80 80 to
    E2 80 8A), U+2028, U+2029, U+202F (E2 80 A8, A9, AF), U+205F (E2 81 9F)
    and U+3000 (E3 80 80). *)
Definition is_space3 (c1 c2 c3 : ascii) : bool :=
  let n1 := nat_of_ascii c1 in
  let n2 := nat_of_ascii c2 in
  let n3 := nat_of_ascii c3 in
  (Nat.eqb n1 225 && Nat.eqb n2 154 && Nat.eqb n3 128) ||
  (Nat.eqb n1 226 && Nat.eqb n2 128 &&
   (((128 <=? n3)%nat && (n3 <=? 138)%nat) || Nat.eqb n3 168 || Nat.eqb n3 169
    || Nat.eqb n3 175)) ||
  (Nat.eqb n1 226 && Nat.eqb n2 129 && Nat.eqb n3 159) ||
  (Nat.eqb n1 227 && Nat.eqb n2 128 && Nat.eqb n3 128).

(** The number of bytes of the white-space character that starts the
    string, 0 when none does. A string of ASCII bytes only is cut by
    [strings.Fields] at the ASCII white space; any other string is decoded
    as UTF-8 and cut at the characters of [unicode.IsSpace]. The two agree
    on ASCII bytes, and the first byte of each of the longer white-space
    characters is a UTF-8 lead byte, at which decoding always starts
    afresh, so that both cases are: cut wherever one of these byte
    sequences stands. *)
Definition space_width (s : string) : nat :=
  match s with
  | String c1 rest =>
      if is_ascii_space c1 then 1
      else match rest with
           | String c2 rest2 =>
               if is_space2 c1 c2 then 2
               else match rest2 with
                    | String c3 _ => if is_space3 c1 c2 c3 then 3 else 0
                    | EmptyString => 0
                    end
           | EmptyString => 0
           end
  | EmptyString => 0
  end.

(** A finished field is kept when it is not empty. *)
Definition emit_field (cur : string) : list string :=
  match cur with
  | EmptyString => []
  | _ => [cur]
  end.

(** [strings.Fields], byte by byte: [skip] bytes of a white-space character
    are still to be passed over, [cur] is the field read so far. *)
Fixpoint Fields_go (s : string) (skip : nat) (cur : string) : list string :=
  match s with
  | EmptyString => emit_field cur
  | String c s' =>
      match skip with
      | S k => Fields_go s' k cur
      | O =>
          match space_width s with
          | O => Fields_go s' 0 (cur +:+ String c EmptyString)
          | S k => emit_field cur ++ Fields_go s' k EmptyString
          end
      end
  end.

Definition Fields (s : string) : list string := Fields_go s 0 EmptyString.

(** The body of the loop of [parseLocalPorts] for one line: the ports it
    appends. *)
Definition parseLocalPorts_line (line : string) : list string :=
  if Contains line "LISTEN" then
    let parts := Fields line in
    if (8 <? List.length parts)%nat then
      let address := default "" (parts !! 8%nat) in
      match Split address ":"%char with
      | _ :: port :: _ => [port]
      | _ => []
      end
    else []
  else [].

(** [parseLocalPorts]. *)
Definition parseLocalPorts (lsofOutput : string) : list string :=
  foldl (fun ports line => ports ++ parseLocalPorts_line line) []
        (Split lsofOutput "010"%char).

(** [GetLocalInUsePorts], from what [CombinedOutput] returns for
    [lsof -i -n]. *)
Definition GetLocalInUsePorts (out : string) (err : error) : LocalScan :=
  match err with
  | Some e => ScanFailed ("failed to get in-use ports: " +:+ e)
  | None => Listening (parseLocalPorts out)
  end.

(** [n] spaces. *)
Fixpoint spaces (n : nat) : string :=
  match n with
  | O => EmptyString
  | S k => String " " (spaces k)
  end.

(** A line of words, each followed by one space and [gap] more, and a last
    word at the end of the line. *)
Fixpoint spaced_line (words : list (string * nat)) (last : string) : string :=
  match words with
  | [] => last
  | (w, gap) :: rest => w +:+ spaces (S gap) +:+ spaced_line rest last
  end.

(** A word: not empty, and no white-space character starts anywhere in
    it. *)
Fixpoint no_space (s : string) : bool :=
  match s with
  | EmptyString => true
  | String _ s' => Nat.eqb (space_width s) 0 && no_space s'
  end.

Definition is_word (s : string) : bool :=
  negb (String.eqb s "") && no_space s.

(** ** docker.go: [GetLocalProcessForPort] *)

Record ProcessInfo := mkProcessInfo {
  pi_Name : string;
  pi_PID : string;
  pi_User : string;
  pi_Command : string
}.

(** One round of the loop over the lines of the [lsof -F pcun] output. *)
Definition ProcessInfo_line (info : ProcessInfo) (line : string) : ProcessInfo :=
  match line with
  | String tag (String c rest) =>
      let value := String c rest in
      if Ascii.eqb tag "p" then
        {| pi_Name := pi_Name info; pi_PID := value; pi_User := pi_User info;
           pi_Command := pi_Command info |}
      else if Ascii.eqb tag "c" then
        {| pi_Name := value; pi_PID := pi_PID info; pi_User := pi_User info;
           pi_Command := pi_Command info |}
      else if Ascii.eqb tag "u" then
        {| pi_Name := pi_Name info; pi_PID := pi_PID info; pi_User := value;
           pi_Command := pi_Command info |}
      else if Ascii.eqb tag "n" then
        {| pi_Name := pi_Name info; pi_PID := pi_PID info; pi_User := pi_User info;
           pi_Command := value |}
      else info
  | _ => info
  end.

(** [strings.ReplaceAll s "\x00" " "]. *)
Fixpoint ReplaceAll_NUL (s : string) : string :=
  match s with
  | EmptyString => EmptyString
  | String c s' =>
      String (if Ascii.eqb c "000" then " "%char else c) (ReplaceAll_NUL s')
  end.

(** [GetLocalProcessForPort], from what [CombinedOutput] returns for
    [lsof -i :port -F pcun] and what reading [/proc/<pid>/cmdline] gives
    ([None] when the file cannot be read). [None] is the nil result. *)
Definition GetLocalProcessForPort (out : string) (err : error)
    (cmdline : string -> option string) : option ProcessInfo :=
  match err with
  | Some _ => None
  | None =>
      let lines := Split out "010"%char in
      if (List.length lines <? 4)%nat then None
      else
        let info := foldl ProcessInfo_line (mkProcessInfo "" "" "" "") lines in
        if String.eqb (pi_PID info) "" then None
        else
          match cmdline (pi_PID info) with
          | Some cmdBytes =>
              Some {| pi_Name := pi_Name info; pi_PID := pi_PID info;
                      pi_User := pi_User info;
                      pi_Command := ReplaceAll_NUL cmdBytes |}
          | None => Some info
          end
  end.

(* ===================================================================== *)
(** * Part II: properties                                                 *)
(* ===================================================================== *)

(** ** Facts on the library functions *)

Section GoStringsFacts.

Lemma ascii_compare_trans c a b d :
  Ascii.compare a b = c -> Ascii.compare b d = c -> Ascii.compare a d = c.
Proof.
  unfold Ascii.compare. destruct c.
  - rewrite !N.compare_eq_iff. congruence.
  - rewrite !N.compare_lt_iff. lia.
  - rewrite !N.compare_gt_iff. lia.
Qed.

Lemma ascii_compare_refl a : Ascii.compare a a = Eq.
Proof. unfold Ascii.compare. apply N.compare_refl. Qed.

Lemma string_compare_refl s : String.compare s s = Eq.
Proof.
  induction s as [|a s IH]; simpl; [done|].
  by rewrite ascii_compare_refl.
Qed.

Lemma string_compare_lt_trans s1 s2 s3 :
  String.compare s1 s2 = Lt -> String.compare s2 s3 = Lt ->
  String.compare s1 s3 = Lt.
Proof.
  revert s2 s3. induction s1 as [|a s1 IH]; intros [|b s2] [|d s3];
    simpl; try done.
  destruct (Ascii.compare a b) eqn:Hab; try done;
    destruct (Ascii.compare b d) eqn:Hbd; try done; intros H1 H2.
  - rewrite (ascii_compare_trans Eq a b d Hab Hbd). eauto.
  - apply Ascii.compare_eq_iff in Hab. subst a. by rewrite Hbd.
  - apply Ascii.compare_eq_iff in Hbd. subst d. by rewrite Hab.
  - by rewrite (ascii_compare_trans Lt a b d Hab Hbd).
Qed.

#[global] Instance string_le_trans : Transitive string_le.
Proof.
  intros s1 s2 s3. unfold string_le, String.leb.
  destruct (String.compare s1 s2) eqn:H12; try done;
    destruct (String.compare s2 s3) eqn:H23; try done; intros _ _.
  - apply String.compare_eq_iff in H12. subst. by rewrite H23.
  - apply String.compare_eq_iff in H12. subst. by rewrite H23.
  - apply String.compare_eq_iff in H23. subst. by rewrite H12.
  - by rewrite (string_compare_lt_trans _ _ _ H12 H23).
Qed.

#[global] Instance string_le_total : Total string_le.
Proof. intros s1 s2. apply String.leb_total. Qed.

#[global] Instance string_le_antisym : AntiSymm (=) string_le.
Proof. intros s1 s2. apply String.leb_antisym. Qed.

Lemma string_le_lt s1 s2 : string_le s1 s2 -> s1 ≠ s2 -> string_lt s1 s2.
Proof.
  unfold string_le, string_lt, String.leb, String.ltb.
  destruct (String.compare s1 s2) eqn:H; try done.
  apply String.compare_eq_iff in H. done.
Qed.

Lemma string_lt_le s1 s2 : string_lt s1 s2 -> string_le s1 s2.
Proof.
  unfold string_le, string_lt, String.leb, String.ltb.
  by destruct (String.compare s1 s2).
Qed.

Lemma string_lt_irrefl s : ~ string_lt s s.
Proof. unfold string_lt, String.ltb. by rewrite string_compare_refl. Qed.

Lemma Strings_Permutation l : Strings l ≡ₚ l.
Proof. apply merge_sort_Permutation. Qed.

Lemma Strings_Sorted l : Sorted string_le (Strings l).
Proof. apply (Sorted_merge_sort string_le). Qed.

(** A slice has one sorted arrangement only: whatever [sort.Strings] does
    inside, this is its result. *)
Lemma Strings_unique l l' :
  l' ≡ₚ l -> Sorted string_le l' -> l' = Strings l.
Proof.
  intros Hp Hs. apply (Sorted_unique string_le); [done|apply Strings_Sorted|].
  by rewrite Strings_Permutation.
Qed.

Lemma Strings_elem_of x l : x ∈ Strings l ↔ x ∈ l.
Proof. by rewrite Strings_Permutation. Qed.

Lemma Strings_NoDup l : NoDup l -> NoDup (Strings l).
Proof. by rewrite Strings_Permutation. Qed.

(** Without duplicates, the sorted slice is strictly increasing. *)
Lemma Strings_strict l : NoDup l -> StronglySorted string_lt (Strings l).
Proof.
  intros Hnd. apply Strings_NoDup in Hnd.
  pose proof (StronglySorted_merge_sort string_le l) as Hs.
  fold (Strings l) in Hs.
  induction Hs as [|x xs Hxs IH Hall]; [constructor|].
  apply NoDup_cons in Hnd as [Hx Hnd].
  constructor; [auto|].
  rewrite Forall_forall in Hall |- *. intros y Hy.
  apply string_le_lt; [auto|]. intros ->. done.
Qed.

Lemma foldl_snoc {A} (l acc : list A) :
  foldl (fun result x => result ++ [x]) acc l = acc ++ l.
Proof.
  revert acc. induction l as [|x l IH]; intros acc; simpl.
  - by rewrite app_nil_r.
  - by rewrite IH, <- app_assoc.
Qed.

Lemma Contains_prefix s sub : HasPrefix s sub = true -> Contains s sub = true.
Proof. intros H. destruct s; cbn [Contains]; rewrite H; done. Qed.

Lemma Contains_tail a s sub : Contains s sub = true -> Contains (String a s) sub = true.
Proof. intros H. cbn [Contains]. rewrite H. apply orb_true_r. Qed.

Lemma HasPrefix_cons a p b s :
  HasPrefix (String b s) (String a p) =
  if ascii_dec a b then HasPrefix s p else false.
Proof. reflexivity. Qed.

(** A text containing "unhealthy" contains "healthy", two bytes later. *)
Lemma Contains_unhealthy status :
  Contains status "unhealthy" = true -> Contains status "healthy" = true.
Proof.
  induction status as [|a s IH]; [done|].
  intros H. cbn [Contains] in H. apply orb_true_iff in H as [H|H].
  - rewrite HasPrefix_cons in H.
    destruct (ascii_dec _ a) as [_|]; [|done].
    destruct s as [|b s]; [done|].
    rewrite HasPrefix_cons in H.
    destruct (ascii_dec _ b) as [_|]; [|done].
    by apply Contains_tail, Contains_tail, Contains_prefix.
  - by apply Contains_tail, IH.
Qed.

End GoStringsFacts.

(** The library functions on inputs of the kind the program gives them. *)

Example Split_host : Split "example.com:22" ":"%char = ["example.com"; "22"].
Proof. reflexivity. Qed.

Example Split_no_separator : Split "3000" "-"%char = ["3000"].
Proof. reflexivity. Qed.

Example Split_range : Split "9000-9002" "-"%char = ["9000"; "9002"].
Proof. reflexivity. Qed.

Example TrimPrefix_name : TrimPrefix "/web" "/" = "web" ∧ TrimPrefix "web" "/" = "web".
Proof. split; reflexivity. Qed.

Example Atoi_values :
  Atoi "9000" = Some 9000%Z ∧ Atoi "-5" = Some (-5)%Z ∧ Atoi "+5" = Some 5%Z ∧
  Atoi "" = None ∧ Atoi "-" = None ∧ Atoi "90a" = None ∧
  Atoi "9223372036854775807" = Some MaxInt ∧ Atoi "9223372036854775808" = None.
Proof. vm_compute. repeat split. Qed.

Example Itoa_values : Itoa 3000 = "3000" ∧ Itoa 0 = "0" ∧ Itoa (-7) = "-7".
Proof. vm_compute. repeat split. Qed.

Example Strings_lexicographic : Strings ["9"; "10"; "443"; "80"] = ["10"; "443"; "80"; "9"].
Proof. vm_compute. reflexivity. Qed.

(** ** Port extraction *)

Section ExtractPorts.

Lemma range_keys_sorted_elem x keys : x ∈ range_keys_sorted keys ↔ x ∈ keys.
Proof.
  unfold range_keys_sorted. by rewrite Strings_elem_of, foldl_snoc.
Qed.

Lemma range_keys_sorted_perm keys keys' :
  keys ≡ₚ keys' -> range_keys_sorted keys = range_keys_sorted keys'.
Proof.
  intros Hp. unfold range_keys_sorted at 1. rewrite foldl_snoc. simpl.
  symmetry. apply Strings_unique.
  - unfold range_keys_sorted. rewrite Strings_Permutation, foldl_snoc. by simpl.
  - apply Strings_Sorted.
Qed.

Lemma range_keys_sorted_NoDup keys : NoDup keys -> NoDup (range_keys_sorted keys).
Proof. intros H. unfold range_keys_sorted. by rewrite foldl_snoc; apply Strings_NoDup. Qed.

Lemma range_keys_sorted_strict keys :
  NoDup keys -> StronglySorted string_lt (range_keys_sorted keys).
Proof. intros H. unfold range_keys_sorted. by rewrite foldl_snoc; apply Strings_strict. Qed.

Lemma map_keys_elem {V} (m : gmap string V) k :
  k ∈ (map_to_list m).*1 ↔ is_Some (m !! k).
Proof.
  rewrite list_elem_of_fmap. split.
  - intros [[k' v] [-> H]]. apply elem_of_map_to_list in H. by exists v.
  - intros [v H]. exists (k, v). split; [done|]. by apply elem_of_map_to_list.
Qed.

Lemma map_keys_NoDup {V} (m : gmap string V) : NoDup (map_to_list m).*1.
Proof. apply NoDup_fst_map_to_list. Qed.

Lemma extractPorts_portMap_keys ports (acc : gmap string bool) k :
  is_Some (foldl extractPorts_step acc ports !! k) ↔
  is_Some (acc !! k) ∨
  ∃ p, p ∈ ports ∧ PublicPort p ≠ 0%Z ∧ k = Itoa (PublicPort p).
Proof.
  revert acc. induction ports as [|p ports IH]; intros acc; simpl.
  - split; [by left|]. intros [H|(p & Hp & _)]; [done|]. by apply elem_of_nil in Hp.
  - rewrite IH. unfold extractPorts_step. split.
    + intros [H|(q & Hq & Hnz & ->)].
      * case_decide as Hnz.
        -- destruct (decide (Itoa (PublicPort p) = k)) as [<-|Hne].
           ++ right. exists p. split; [left|done].
           ++ rewrite lookup_insert_ne in H by done. by left.
        -- by left.
      * right. exists q. split; [by right|done].
    + intros [H|(q & Hq & Hnz & ->)].
      * left. case_decide; [|done].
        destruct (decide (Itoa (PublicPort p) = k)) as [<-|Hne].
        -- rewrite lookup_insert_eq. by eexists.
        -- by rewrite lookup_insert_ne.
      * apply elem_of_cons in Hq as [->|Hq].
        -- left. rewrite decide_True by done. rewrite lookup_insert_eq. by eexists.
        -- right. by exists q.
Qed.

Lemma extractPorts_elem ports x :
  x ∈ extractPorts ports ↔
  ∃ p, p ∈ ports ∧ PublicPort p ≠ 0%Z ∧ x = Itoa (PublicPort p).
Proof.
  unfold extractPorts. rewrite range_keys_sorted_elem, map_keys_elem.
  unfold extractPorts_portMap.
  rewrite extractPorts_portMap_keys, lookup_empty. split.
  - intros [[? ?]|H]; done.
  - by right.
Qed.

(** The order in which [range] yields the keys of [portMap] does not show
    in the result. *)
Lemma extractPorts_any_order ports keys :
  keys ≡ₚ (map_to_list (extractPorts_portMap ports)).*1 ->
  range_keys_sorted keys = extractPorts ports.
Proof. apply range_keys_sorted_perm. Qed.

End ExtractPorts.

(** C8 (as amended): the exposed-port list has no duplicates, holds exactly
    the decimal strings of the public ports that are not zero, and is in
    strictly increasing order of the STRINGS (byte-wise lexicographic, the
    order of [sort.Strings]). *)
Theorem C8_extractPorts_sorted_set (ports : list Port) :
  NoDup (extractPorts ports) ∧
  StronglySorted string_lt (extractPorts ports) ∧
  (∀ x, x ∈ extractPorts ports ↔
        ∃ p, p ∈ ports ∧ PublicPort p ≠ 0%Z ∧ x = Itoa (PublicPort p)).
Proof.
  split; [|split].
  - apply range_keys_sorted_NoDup, map_keys_NoDup.
  - apply range_keys_sorted_strict, map_keys_NoDup.
  - intros x. apply extractPorts_elem.
Qed.

(** C8 (as stated) fails: public ports 80 and 443 come out as "443", "80",
    which is not the increasing numerical order "80", "443". *)
Lemma C8_counterexample :
  let ports := [mkPort "0.0.0.0" 80 80 "tcp"; mkPort "0.0.0.0" 443 443 "tcp"] in
  extractPorts ports = ["443"; "80"] ∧
  extractPorts_numeric ports = ["80"; "443"] ∧
  extractPorts ports ≠ extractPorts_numeric ports.
Proof. vm_compute. split; [done|split; [done|discriminate]]. Qed.

(** ** Health mapping *)

Lemma parseContainerState_never_Unhealthy state status :
  parseContainerState state status ≠ HealthUnhealthy.
Proof.
  unfold parseContainerState.
  repeat (match goal with
          | |- context [String.eqb ?a ?b] => destruct (String.eqb a b)
          end; try discriminate).
  destruct (Contains status "healthy") eqn:Hh; [discriminate|].
  destruct (Contains status "unhealthy") eqn:Hu; [|discriminate].
  apply Contains_unhealthy in Hu. congruence.
Qed.

(** C3: what the code returns on the inputs of the claim. A running
    container whose status text is "Up 2 minutes (unhealthy)" comes out as
    Healthy, since the test for "healthy" runs first and "unhealthy"
    contains it; the other three rows of the claim hold. *)
Theorem C3_parseContainerState_rows :
  parseContainerState "running" "Up 2 minutes (unhealthy)" = HealthHealthy ∧
  parseContainerState "running" "Up 2 minutes" = HealthRunning ∧
  (∀ status, parseContainerState "exited" status = HealthExited) ∧
  (∀ status, parseContainerState "bogus" status = HealthUnknown) ∧
  (∀ state status, parseContainerState state status ≠ HealthUnhealthy).
Proof.
  repeat split; try reflexivity. apply parseContainerState_never_Unhealthy.
Qed.

(** ** Forwarding never fails *)

Section Forwarding.

Lemma ForwardPort_start_nil s rt r l : (ForwardPort_start s rt r l).2 = None.
Proof. reflexivity. Qed.

(** [ForwardPort] has no path that returns an error. *)
Lemma ForwardPort_nil s rt r l : (ForwardPort s rt r l).2 = None.
Proof.
  unfold ForwardPort. destruct (ports s !! r) as [m|]; [|done].
  by destruct (String.eqb m _).
Qed.

Lemma forwardPorts_loop_nil exposed s rt : (forwardPorts_loop s rt exposed).2 = None.
Proof.
  revert s rt. induction exposed as [|p rest IH]; intros s rt; simpl; [done|].
  pose proof (ForwardPort_nil s rt p p) as H.
  destruct (ForwardPort s rt p p) as [[s' rt'] e]. simpl in H. subst e. apply IH.
Qed.

(** Hence [forwardPorts] always leaves the status Forwarded, also when
    there is no port to forward. *)
Lemma forwardPorts_Forwarded s rt service :
  (forwardPorts s rt service).1.2 = set_ForwardStatus service StatusForwarded ∧
  (forwardPorts s rt service).2 = None.
Proof.
  unfold forwardPorts.
  pose proof (forwardPorts_loop_nil (ExposedPorts service) s rt) as H.
  destruct (forwardPorts_loop s rt (ExposedPorts service)) as [[s' rt'] e].
  simpl in H. by subst e.
Qed.

Lemma GetServices_loop_Forwarded containers s rt acc s' rt' svcs :
  GetServices_loop s rt containers acc = (s', rt', Returns svcs) ->
  (∀ name svc, acc !! name = Some svc -> ForwardStatus svc = StatusForwarded) ->
  ∀ name svc, svcs !! name = Some svc -> ForwardStatus svc = StatusForwarded.
Proof.
  revert s rt acc. induction containers as [|c rest IH]; intros s rt acc; simpl.
  - intros [= <- <- <-]. auto.
  - destruct (Names c) as [|name0 names]; [done|].
    pose proof (forwardPorts_Forwarded s rt
      {| Name := TrimPrefix name0 "/"; ExposedPorts := extractPorts (Ports c);
         HealthStatus := parseContainerState (State c) (Status c);
         ForwardStatus := StatusNotForwarded; LocalPorts := []; Conflicts := [] |})
      as [Hsvc Herr].
    destruct (forwardPorts s rt _) as [[[s1 rt1] svc1] e]. simpl in Hsvc, Herr.
    subst svc1 e. intros Hloop Hacc. eapply IH; [exact Hloop|].
    intros name svc. destruct (decide (TrimPrefix name0 "/" = name)) as [<-|Hne].
    + rewrite lookup_insert_eq. by intros [= <-].
    + rewrite lookup_insert_ne by done. apply Hacc.
Qed.

(** Every service made by [GetServices] has an empty conflict list. *)
Lemma GetServices_loop_Conflicts containers s rt acc s' rt' svcs :
  GetServices_loop s rt containers acc = (s', rt', Returns svcs) ->
  (∀ name svc, acc !! name = Some svc -> Conflicts svc = []) ->
  ∀ name svc, svcs !! name = Some svc -> Conflicts svc = [].
Proof.
  revert s rt acc. induction containers as [|c rest IH]; intros s rt acc; simpl.
  - intros [= <- <- <-]. auto.
  - destruct (Names c) as [|name0 names]; [done|].
    pose proof (forwardPorts_Forwarded s rt
      {| Name := TrimPrefix name0 "/"; ExposedPorts := extractPorts (Ports c);
         HealthStatus := parseContainerState (State c) (Status c);
         ForwardStatus := StatusNotForwarded; LocalPorts := []; Conflicts := [] |})
      as [Hsvc Herr].
    destruct (forwardPorts s rt _) as [[[s1 rt1] svc1] e]. simpl in Hsvc, Herr.
    subst svc1 e. intros Hloop Hacc. eapply IH; [exact Hloop|].
    intros name svc. destruct (decide (TrimPrefix name0 "/" = name)) as [<-|Hne].
    + rewrite lookup_insert_eq. by intros [= <-].
    + rewrite lookup_insert_ne by done. apply Hacc.
Qed.

(** The expansion of a port range by [ForwardPorts]: one session for each
    port of the range, each forwarded to the local port of the same
    number. *)
Example ForwardPorts_range :
  let svc := mkServiceStatus "web" ["9000-9002"] HealthRunning
                             StatusNotForwarded [] [] in
  ∃ s' rt',
    ForwardPorts (NewSSHClient "user" "host:22") (NewRuntime [] 1) svc ∅
      = Returns (s', rt', None) ∧
    map_to_list (ports s') ≡ₚ [("9000", "9000"); ("9001", "9001"); ("9002", "9002")] ∧
    t_remotePort <$> tasks rt' = ["9000"; "9001"; "9002"].
Proof.
  intros svc. eexists _, _. split; [vm_compute; reflexivity|].
  split; [|vm_compute; reflexivity].
  vm_compute map_to_list.
  apply NoDup_Permutation.
  - apply NoDup_ListNoDup. repeat constructor; simpl; intuition discriminate.
  - apply NoDup_ListNoDup. repeat constructor; simpl; intuition discriminate.
  - intros x. rewrite !list_elem_of_In. simpl. tauto.
Qed.

End Forwarding.

(** ** Conflicts and status of [UpdateForwardingStatus] *)

Section Conflicts.

Lemma IsPortInUse_elem port localPorts :
  IsPortInUse port localPorts = true ↔ port ∈ localPorts.
Proof.
  induction localPorts as [|p rest IH]; simpl.
  - split; [done|]. intros H. by apply elem_of_nil in H.
  - rewrite elem_of_cons. destruct (String.eqb_spec p port) as [->|Hne].
    + split; auto.
    + rewrite IH. split; [auto|]. intros [->|H]; done.
Qed.

Lemma contains_elem slice item : contains slice item = true ↔ item ∈ slice.
Proof.
  induction slice as [|p rest IH]; simpl.
  - split; [done|]. intros H. by apply elem_of_nil in H.
  - rewrite elem_of_cons. destruct (String.eqb_spec p item) as [->|Hne].
    + split; auto.
    + rewrite IH. split; [auto|]. intros [->|H]; done.
Qed.

Lemma UpdateForwardingStatus_conflicts localPorts exposed acc k :
  is_Some ((foldl (UpdateForwardingStatus_step localPorts) acc exposed).1 !! k) ↔
  is_Some (acc.1 !! k) ∨ (k ∈ exposed ∧ k ∈ localPorts).
Proof.
  revert acc. induction exposed as [|p rest IH]; intros [c st]; simpl.
  - split; [by left|]. intros [H|[H _]]; [done|]. by apply elem_of_nil in H.
  - rewrite IH. rewrite elem_of_cons.
    destruct (IsPortInUse p localPorts) eqn:Hp; simpl.
    + apply IsPortInUse_elem in Hp.
      destruct (decide (p = k)) as [->|Hne].
      * rewrite lookup_insert_eq. split; [|intros _; left; by eexists].
        intros _. right. auto.
      * rewrite lookup_insert_ne by done. split.
        -- intros [H|[H1 H2]]; auto.
        -- intros [H|[[->|H1] H2]]; auto. done.
    + assert (p ∉ localPorts) as Hn.
      { rewrite <- IsPortInUse_elem. congruence. }
      assert ((if negb (String.eqb st StatusConflict)
               then (c, StatusReady) else (c, st)).1 = c) as ->.
      { by destruct (negb _). }
      split.
      * intros [H|[H1 H2]]; auto.
      * intros [H|[[->|H1] H2]]; auto. done.
Qed.

Lemma UpdateForwardingStatus_status localPorts exposed acc :
  (foldl (UpdateForwardingStatus_step localPorts) acc exposed).2 =
  status_after localPorts exposed acc.2.
Proof.
  revert acc. induction exposed as [|p rest IH]; intros [c st]; simpl.
  - unfold status_after. simpl. by destruct (String.eqb_spec st StatusConflict).
  - rewrite IH. unfold status_after. simpl.
    destruct (IsPortInUse p localPorts); simpl.
    + by destruct (existsb _ rest).
    + destruct (String.eqb_spec st StatusConflict) as [->|Hne]; simpl.
      * by destruct (existsb _ rest).
      * destruct (existsb _ rest); [done|]. by destruct rest.
Qed.

Lemma UpdateForwardingStatus_service_Conflicts localPorts svc r :
  r ∈ Conflicts (UpdateForwardingStatus_service localPorts svc) ↔
  r ∈ ExposedPorts svc ∧ r ∈ localPorts.
Proof.
  unfold UpdateForwardingStatus_service, UpdateForwardingStatus_ports.
  pose proof (UpdateForwardingStatus_conflicts localPorts (ExposedPorts svc)
                (∅, StatusForwarded) r) as H.
  destruct (foldl _ _ _) as [c st]. simpl in *.
  rewrite range_keys_sorted_elem, map_keys_elem, H, lookup_empty.
  split; [|auto]. intros [[? ?]|?]; done.
Qed.

Lemma UpdateForwardingStatus_service_ExposedPorts localPorts svc :
  ExposedPorts (UpdateForwardingStatus_service localPorts svc) = ExposedPorts svc.
Proof.
  unfold UpdateForwardingStatus_service.
  by destruct (UpdateForwardingStatus_ports _ _).
Qed.

Lemma UpdateForwardingStatus_service_NoDup localPorts svc :
  NoDup (Conflicts (UpdateForwardingStatus_service localPorts svc)).
Proof.
  unfold UpdateForwardingStatus_service.
  destruct (UpdateForwardingStatus_ports _ _) as [c st]. simpl.
  apply range_keys_sorted_NoDup, map_keys_NoDup.
Qed.

Lemma UpdateForwardingStatus_service_status localPorts svc :
  ForwardStatus (UpdateForwardingStatus_service localPorts svc) =
  status_after localPorts (ExposedPorts svc) StatusForwarded.
Proof.
  unfold UpdateForwardingStatus_service, UpdateForwardingStatus_ports.
  pose proof (UpdateForwardingStatus_status localPorts (ExposedPorts svc)
                (∅, StatusForwarded)) as H.
  destruct (foldl _ _ _) as [c st]. simpl in *. done.
Qed.

End Conflicts.

(** C1 (as amended): after [UpdateForwardingStatus] with a successful scan
    of the local ports, a remote port is in the conflict list of a service
    if and only if it is an exposed port of the service and the remote port
    ITSELF is among the listening ports. Neither the port mappings nor the
    registry of the engine's own sessions is looked at. *)
Theorem C1_conflict_iff_port_listening
    (d d' : DockerClient) (localPorts : list string) (err : error)
    (name : string) (svc' : ServiceStatus) (remotePort : string)
    (Hrun : UpdateForwardingStatus d (Listening localPorts) = (d', err))
    (Hsvc : services d' !! name = Some svc') :
  err = None ∧
  (remotePort ∈ Conflicts svc' ↔
   remotePort ∈ ExposedPorts svc' ∧ remotePort ∈ localPorts).
Proof.
  unfold UpdateForwardingStatus in Hrun. injection Hrun as <- <-.
  split; [done|]. simpl in Hsvc. rewrite lookup_fmap in Hsvc.
  destruct (services d !! name) as [svc|]; [|done].
  injection Hsvc as <-.
  by rewrite UpdateForwardingStatus_service_Conflicts,
             UpdateForwardingStatus_service_ExposedPorts.
Qed.

Lemma C1_conflict_iff_port_listening_witness :
  let svc := mkServiceStatus "web" ["8080"; "9090"] HealthRunning
                             StatusForwarded [] [] in
  let svc' := mkServiceStatus "web" ["8080"; "9090"] HealthRunning
                              StatusConflict [] ["9090"] in
  let d := mkDockerClient 0 (<["web" := svc]> ∅) ∅ in
  let d' := mkDockerClient 0 (<["web" := svc']> ∅) ∅ in
  UpdateForwardingStatus d (Listening ["9090"]) = (d', None) ∧
  services d' !! "web" = Some svc' ∧
  (None : error) = None ∧
  ("9090" ∈ Conflicts svc' ↔ "9090" ∈ ExposedPorts svc' ∧ "9090" ∈ ["9090"]).
Proof.
  intros svc svc' d d'.
  assert (UpdateForwardingStatus d (Listening ["9090"]) = (d', None)) as Hrun
    by (vm_compute; reflexivity).
  assert (services d' !! "web" = Some svc') as Hsvc
    by (vm_compute; reflexivity).
  split; [exact Hrun|]. split; [exact Hsvc|].
  exact (C1_conflict_iff_port_listening d d' ["9090"] None "web" svc' "9090"
           Hrun Hsvc).
Defined.

(** C1 (as stated) fails. The engine forwards 8080 itself (the registry
    maps 8080 to 8080); the local scan shows 8080 and 9090. The service
    exposing both gets BOTH ports in its conflict list, although 8080 is
    not in conflict in the words of the specification. *)
Lemma C1_counterexample :
  let s := (ForwardPort (NewSSHClient "user" "host:22") (NewRuntime [] 1)
                        "8080" "8080").1.1 in
  let svc := mkServiceStatus "web" ["8080"; "9090"] HealthRunning
                             StatusForwarded [] [] in
  let d := mkDockerClient 0 (<["web" := svc]> ∅) ∅ in
  let localPorts := ["8080"; "9090"] in
  Conflicts <$> services (UpdateForwardingStatus d (Listening localPorts)).1 !! "web"
    = Some ["8080"; "9090"] ∧
  own_session s "8080" ∧
  ¬ in_conflict_spec d s svc localPorts "8080".
Proof.
  split; [vm_compute; reflexivity|].
  assert (own_session
            (ForwardPort (NewSSHClient "user" "host:22") (NewRuntime [] 1)
                         "8080" "8080").1.1 "8080") as Hown.
  { exists "8080". vm_compute. reflexivity. }
  split; [exact Hown|].
  intros (_ & _ & Hnot). apply Hnot. exact Hown.
Qed.

(** ** The refresh cycle *)

Section Refresh.

Lemma updateServices_Decoded w containers w' :
  updateServices w (Decoded containers) = Returns w' ->
  ∃ s' rt' svcs,
    GetServices_loop (ssh w) (rt w) containers ∅ = (s', rt', Returns svcs) ∧
    w' = {| ssh := s'; rt := rt';
            docker := UpdateServices (docker w) svcs;
            display := Display_UpdateServices (display w) svcs |}.
Proof.
  unfold updateServices, GetServices.
  destruct (GetServices_loop (ssh w) (rt w) containers ∅) as [[s' rt'] [svcs|msg|]];
    try done.
  intros [= <-]. by exists s', rt', svcs.
Qed.

End Refresh.

(** C2 (as amended): after a refresh cycle of the poll loop ([GetServices],
    then [UpdateServices]) every service of the map has the status
    Forwarded, with or without exposed ports; and when
    [UpdateForwardingStatus] is then run with a scan of the local ports, the
    status of the service is Conflict if one of its exposed ports is
    listening locally, else Ready if it has an exposed port, else
    Forwarded. *)
Theorem C2_status_after_refresh
    (w w' : World) (containers : list Container) (name : string)
    (svc : ServiceStatus) (localPorts : list string)
    (Hrefresh : updateServices w (Decoded containers) = Returns w')
    (Hsvc : services (docker w') !! name = Some svc) :
  ForwardStatus svc = StatusForwarded ∧
  ∃ svc2,
    services (UpdateForwardingStatus (docker w') (Listening localPorts)).1 !! name
      = Some svc2 ∧
    ForwardStatus svc2 =
      if existsb (fun p => IsPortInUse p localPorts) (ExposedPorts svc)
      then StatusConflict
      else match ExposedPorts svc with
           | [] => StatusForwarded
           | _ :: _ => StatusReady
           end.
Proof.
  apply updateServices_Decoded in Hrefresh as (s' & rt' & svcs & Hloop & ->).
  simpl in Hsvc. split.
  - eapply GetServices_loop_Forwarded; [exact Hloop| |exact Hsvc].
    intros n sv. by rewrite lookup_empty.
  - exists (UpdateForwardingStatus_service localPorts svc). split.
    + simpl. by rewrite lookup_fmap, Hsvc.
    + rewrite UpdateForwardingStatus_service_status. unfold status_after.
      destruct (existsb _ _); [done|]. simpl. by destruct (ExposedPorts svc).
Qed.

Lemma C2_status_after_refresh_witness :
  let w := NewWorld "user" "host:22" 40000 in
  let web := mkContainer "1" ["/web"] "running" "Up"
                         [mkPort "0.0.0.0" 3000 3000 "tcp"] in
  let db := mkContainer "2" ["/db"] "running" "Up" [mkPort "" 5432 0 "tcp"] in
  let svc := mkServiceStatus "db" [] HealthRunning StatusForwarded [] [] in
  ∃ w', updateServices w (Decoded [web; db]) = Returns w' ∧
        services (docker w') !! "db" = Some svc ∧
        ForwardStatus svc = StatusForwarded.
Proof.
  intros w web db svc.
  destruct (updateServices w (Decoded [web; db])) as [w'| |] eqn:Hrefresh;
    [|vm_compute in Hrefresh; discriminate..].
  exists w'.
  assert (services (docker w') !! "db" = Some svc) as Hsvc.
  { vm_compute in Hrefresh. injection Hrefresh as <-. vm_compute. reflexivity. }
  split; [reflexivity|]. split; [exact Hsvc|].
  exact (proj1 (C2_status_after_refresh w w' [web; db] "db" svc [] Hrefresh Hsvc)).
Defined.

(** C2 (as stated) fails. Discovery returns [web] (public port 3000) and
    [db] (no public port), nothing listens locally. After the refresh [db]
    is Forwarded, not NotForwarded; and once [UpdateForwardingStatus] has
    run, [web] is Ready, not Forwarded, and [db] still Forwarded. *)
Lemma C2_counterexample :
  let w := NewWorld "user" "host:22" 40000 in
  let web := mkContainer "1" ["/web"] "running" "Up"
                         [mkPort "0.0.0.0" 3000 3000 "tcp"] in
  let db := mkContainer "2" ["/db"] "running" "Up" [mkPort "" 5432 0 "tcp"] in
  ∃ w', updateServices w (Decoded [web; db]) = Returns w' ∧
        ExposedPorts <$> services (docker w') !! "db" = Some [] ∧
        ForwardStatus <$> services (docker w') !! "db" = Some StatusForwarded ∧
        StatusForwarded ≠ StatusNotForwarded ∧
        let d2 := (UpdateForwardingStatus (docker w') (Listening [])).1 in
        ForwardStatus <$> services d2 !! "web" = Some StatusReady ∧
        ForwardStatus <$> services d2 !! "db" = Some StatusForwarded.
Proof.
  intros w web db. eexists. split; [vm_compute; reflexivity|].
  vm_compute. repeat split; discriminate.
Qed.

(** ** The forwarding registry and its goroutines *)

Section Registry.

(** The local port that [ForwardPort] works with. *)
Lemma ForwardPort_registry s rt r l :
  ports (ForwardPort s rt r l).1.1 !! r
  = Some (if String.eqb l "" then r else l).
Proof.
  unfold ForwardPort. set (l' := if String.eqb l "" then r else l).
  destruct (ports s !! r) as [m|] eqn:Hm.
  - destruct (String.eqb_spec m l') as [->|Hne]; [done|].
    simpl. apply lookup_insert_eq.
  - simpl. apply lookup_insert_eq.
Qed.

(** A second call with the same arguments changes nothing: no command is
    run, no goroutine is started, the registry is as it was. *)
Lemma ForwardPort_idempotent s rt r l :
  ForwardPort (ForwardPort s rt r l).1.1 (ForwardPort s rt r l).1.2 r l
  = ((ForwardPort s rt r l).1.1, (ForwardPort s rt r l).1.2, None).
Proof.
  pose proof (ForwardPort_registry s rt r l) as Hreg.
  destruct (ForwardPort s rt r l) as [[s1 rt1] e]. simpl in *.
  unfold ForwardPort. rewrite Hreg. by rewrite String.eqb_refl.
Qed.

(** On an error of [Run] the goroutine of a live task returns: the task is
    ended and the registry entry of its remote port is gone. *)
Lemma goroutine_ExitErr_ends s rt i e t :
  tasks rt !! i = Some t -> t_state t ≠ Ended ->
  ∃ s' rt', goroutine_step (ExitErr i e) s rt = Some (s', rt') ∧
            t_state <$> tasks rt' !! i = Some Ended ∧
            ports s' !! t_remotePort t = None.
Proof.
  intros Ht Hlive. unfold goroutine_step. rewrite Ht.
  apply lookup_lt_Some in Ht as Hlt.
  destruct (t_state t) as [|pid|]; [| |done]; eexists _, _;
    (split; [reflexivity|]); simpl;
    (split; [by rewrite list_lookup_insert_eq|apply lookup_delete_eq]).
Qed.

(** A goroutine that has returned makes no further move. *)
Lemma goroutine_Ended_stuck s rt i t :
  tasks rt !! i = Some t -> t_state t = Ended ->
  goroutine_step (ExecStart i) s rt = None ∧
  goroutine_step (ExitOk i) s rt = None ∧
  ∀ e, goroutine_step (ExitErr i e) s rt = None.
Proof. intros Ht Hst. unfold goroutine_step. by rewrite Ht, Hst. Qed.

(** Where the old local port IS the remote port, the process found by
    [lsof] is the old session's, and it is killed. Its goroutine then gets
    an error from [Run] and removes the registry entry of the remote port,
    by now the entry of the NEW session; the next [ForwardPort] with the
    same arguments does not find it and starts one more session. *)
Example ForwardPort_remap_from_identity :
  let st1 := ForwardPort (NewSSHClient "user" "host:22") (NewRuntime [] 1)
                         "3000" "3000" in
  ∃ s2 rt2 s3 rt3 s4 rt4 s5 rt5,
    goroutine_run [ExecStart 0] st1.1.1 st1.1.2 = Some (s2, rt2) ∧
    procs rt2 = [mkProc 1 "3000"] ∧
    ForwardPort s2 rt2 "3000" "8081" = (s3, rt3, None) ∧
    procs rt3 = [] ∧
    goroutine_run [ExitErr 0 "signal: terminated"; ExecStart 1] s3 rt3
      = Some (s4, rt4) ∧
    t_state <$> tasks rt4 = [Ended; Running 2] ∧
    ports s4 !! "3000" = None ∧
    ForwardPort s4 rt4 "3000" "8081" = (s5, rt5, None) ∧
    t_localPort <$> live_sessions rt5 "3000" = ["8081"; "8081"].
Proof.
  intros st1. eexists _, _, _, _, _, _, _, _.
  split; [vm_compute; reflexivity|]. split; [reflexivity|].
  split; [vm_compute; reflexivity|]. split; [reflexivity|].
  split; [vm_compute; reflexivity|]. split; [reflexivity|].
  split; [vm_compute; reflexivity|].
  split; [vm_compute; reflexivity|]. vm_compute. reflexivity.
Qed.

End Registry.

(** C4: what the code does when the forwarding process fails. Port 3000 is
    forwarded once and never remapped; [ssh] starts and exits with a
    failure status. The goroutine logs "failed, retrying", removes the
    registry entry and returns: the task is ended, no session for 3000 is
    left, and no further move of the goroutine exists. *)
Theorem C4_task_ends_on_failure :
  let st := ForwardPort (NewSSHClient "user" "host:22") (NewRuntime [] 1)
                        "3000" "3000" in
  ∃ s1 rt1 t,
    goroutine_run [ExecStart 0; ExitErr 0 "exit status 255"] st.1.1 st.1.2
      = Some (s1, rt1) ∧
    tasks rt1 = [t] ∧ t_remotePort t = "3000" ∧ t_state t = Ended ∧
    live_sessions rt1 "3000" = [] ∧
    ports s1 !! "3000" = None ∧
    logs rt1 = ["Port forwarding for 3000 -> 3000 failed, retrying: exit status 255"] ∧
    (∀ ev, goroutine_step ev s1 rt1 = None).
Proof.
  intros st. eexists _, _, _. split; [vm_compute; reflexivity|].
  split; [reflexivity|]. repeat split.
  intros [[|i]|[|i]|[|i] e]; reflexivity.
Qed.

(** C5: what the code does when a forwarded remote port is given another
    local port. 3000 is forwarded to 8081 and its [ssh] runs; then 3000 is
    forwarded to 8082. [lsof] is asked for port 3000, where the old process
    (bound to 8081) is not found: nothing is killed, and two live sessions
    forward the remote port 3000. *)
Theorem C5_old_session_survives :
  let st1 := ForwardPort (NewSSHClient "user" "host:22") (NewRuntime [] 1)
                         "3000" "8081" in
  ∃ s2 rt2 s3 rt3 s4 rt4,
    goroutine_run [ExecStart 0] st1.1.1 st1.1.2 = Some (s2, rt2) ∧
    ForwardPort s2 rt2 "3000" "8082" = (s3, rt3, None) ∧
    procs rt3 = [mkProc 1 "8081"] ∧
    List.length (live_sessions rt3 "3000") = 2%nat ∧
    goroutine_run [ExecStart 1] s3 rt3 = Some (s4, rt4) ∧
    t_state <$> tasks rt4 = [Running 1; Running 2] ∧
    t_localPort <$> live_sessions rt4 "3000" = ["8081"; "8082"] ∧
    procs rt4 = [mkProc 1 "8081"; mkProc 2 "8082"] ∧
    ports s4 !! "3000" = Some "8082".
Proof.
  intros st1. eexists _, _, _, _, _, _.
  split; [vm_compute; reflexivity|].
  split; [vm_compute; reflexivity|].
  split; [reflexivity|]. split; [vm_compute; reflexivity|].
  split; [vm_compute; reflexivity|].
  vm_compute. repeat split.
Qed.

(** ** Failed polls *)

(** C6: when the query of the Docker API fails, in transport or in
    decoding, [GetServices] returns the error without touching anything,
    and the poll loop body logs it and returns: the service map, the port
    mappings, the display, the registry, the goroutines and the processes
    are as before; the log has one more line. A failed scan of the local
    ports likewise leaves the client of [UpdateForwardingStatus] as it
    was. *)
Theorem C6_failed_poll_keeps_services (w : World) (e : string) :
  (GetServices (ssh w) (rt w) (TransportError e)
     = (ssh w, rt w, Returns (None, Some ("failed to query Docker API: " +:+ e))) ∧
   updateServices w (TransportError e)
     = Returns {| ssh := ssh w;
                  rt := log_Printf (rt w)
                          ("Error fetching services: failed to query Docker API: " +:+ e);
                  docker := docker w; display := display w |}) ∧
  (GetServices (ssh w) (rt w) (DecodeError e)
     = (ssh w, rt w,
        Returns (None, Some ("failed to decode Docker API response: " +:+ e))) ∧
   updateServices w (DecodeError e)
     = Returns {| ssh := ssh w;
                  rt := log_Printf (rt w)
                          ("Error fetching services: failed to decode Docker API response: " +:+ e);
                  docker := docker w; display := display w |}) ∧
  UpdateForwardingStatus (docker w) (ScanFailed e)
    = (docker w, Some ("error getting local ports: " +:+ e)).
Proof. repeat split. Qed.

(** ** Panic on a record without names *)

Section EmptyNames.

Lemma GetServices_loop_panics containers s rt acc :
  (∃ c, c ∈ containers ∧ Names c = []) ->
  ∃ s' rt', GetServices_loop s rt containers acc
            = (s', rt', Panics "runtime error: index out of range [0] with length 0").
Proof.
  revert s rt acc. induction containers as [|c rest IH]; intros s rt acc.
  - intros (c & Hc & _). by apply elem_of_nil in Hc.
  - intros (c0 & Hc0 & Hnames). simpl.
    destruct (Names c) as [|name0 names] eqn:Hc; [by eexists _, _|].
    destruct (forwardPorts s rt _) as [[[s1 rt1] svc1] err].
    apply IH. exists c0. split; [|done].
    apply elem_of_cons in Hc0 as [->|H]; [congruence|done].
Qed.

End EmptyNames.

(** C9: a decoded response with a record whose [Names] is empty makes
    [GetServices] panic; it does not return, with or without an error. *)
Theorem C9_GetServices_panics_on_empty_Names
    (s : SSHClient) (rt : Runtime) (containers : list Container)
    (Hempty : ∃ c, c ∈ containers ∧ Names c = []) :
  ∃ s' rt', GetServices s rt (Decoded containers)
            = (s', rt', Panics "runtime error: index out of range [0] with length 0").
Proof.
  destruct (GetServices_loop_panics containers s rt ∅ Hempty) as (s' & rt' & H).
  exists s', rt'. unfold GetServices. by rewrite H.
Qed.

Lemma C9_GetServices_panics_on_empty_Names_witness :
  let web := mkContainer "1" ["/web"] "running" "Up"
                         [mkPort "0.0.0.0" 3000 3000 "tcp"] in
  let anon := mkContainer "2" [] "running" "Up" [] in
  (∃ c, c ∈ [web; anon] ∧ Names c = []) ∧
  ∃ s' rt',
    GetServices (NewSSHClient "user" "host:22") (NewRuntime [] 1)
                (Decoded [web; anon])
    = (s', rt', Panics "runtime error: index out of range [0] with length 0").
Proof.
  intros web anon.
  assert (∃ c, c ∈ [web; anon] ∧ Names c = []) as Hempty.
  { exists anon. split; [|reflexivity]. right. left. }
  split; [exact Hempty|].
  exact (C9_GetServices_panics_on_empty_Names _ _ [web; anon] Hempty).
Defined.

(** ** Remapping *)

Section Remap.

Lemma removeString_subseteq slice s x : x ∈ removeString slice s -> x ∈ slice.
Proof.
  induction slice as [|v rest IH]; simpl; [done|].
  destruct (String.eqb v s).
  - by right.
  - rewrite !elem_of_cons. intros [->|H]; auto.
Qed.

Lemma removeString_NoDup slice s : NoDup slice -> NoDup (removeString slice s).
Proof.
  induction 1 as [|v rest Hv Hnd IH]; simpl; [constructor|].
  destruct (String.eqb v s); [done|].
  constructor; [|done]. intros H. by apply removeString_subseteq in H.
Qed.

(** Without duplicates, cutting out the first [s] leaves no [s]. *)
Lemma removeString_gone slice s : NoDup slice -> s ∉ removeString slice s.
Proof.
  induction 1 as [|v rest Hv Hnd IH]; simpl.
  - intros H. by apply elem_of_nil in H.
  - destruct (String.eqb_spec v s) as [->|Hne]; [done|].
    rewrite elem_of_cons. intros [->|H]; done.
Qed.

Lemma RemapPort_Conflicts d svc r l :
  Conflicts (RemapPort d svc r l).1.2 =
  if contains (Conflicts svc) r then removeString (Conflicts svc) r
  else Conflicts svc.
Proof. unfold RemapPort. simpl. by destruct (contains _ _). Qed.

(** The conflict list stays without duplicates under [RemapPort]; it is so
    after [UpdateForwardingStatus] and in every service made by
    [GetServices]. *)
Lemma RemapPort_NoDup d svc r l :
  NoDup (Conflicts svc) -> NoDup (Conflicts (RemapPort d svc r l).1.2).
Proof.
  intros H. rewrite RemapPort_Conflicts.
  destruct (contains _ _); [by apply removeString_NoDup|done].
Qed.

Lemma GetPortMapping_RemapPort d svc r l name r' :
  GetPortMapping (RemapPort d svc r l).1.1 name r' =
  if decide (Name svc = name ∧ r = r') then l else GetPortMapping d name r'.
Proof.
  unfold GetPortMapping, RemapPort. simpl.
  destruct (decide (Name svc = name)) as [<-|Hname].
  - rewrite lookup_insert_eq.
    destruct (decide (r = r')) as [<-|Hr].
    + rewrite lookup_insert_eq. by rewrite decide_True.
    + rewrite lookup_insert_ne by done.
      rewrite decide_False by (intros [_ ?]; done).
      destruct (portMappings d !! Name svc) as [inner|] eqn:Hpm; simpl.
      * by rewrite Hpm.
      * by rewrite lookup_insert_eq.
  - rewrite lookup_insert_ne by done.
    rewrite decide_False by (intros [? _]; done).
    destruct (portMappings d !! Name svc) as [inner|] eqn:Hpm; [done|].
    by rewrite lookup_insert_ne.
Qed.

Lemma remap_all_cons d svc r l calls :
  remap_all d ((svc, r, l) :: calls) = remap_all (RemapPort d svc r l).1.1 calls.
Proof. reflexivity. Qed.

Lemma GetPortMapping_remap_all calls d name r' :
  Forall (fun c : ServiceStatus * string * string =>
            ¬ (Name c.1.1 = name ∧ c.1.2 = r')) calls ->
  GetPortMapping (remap_all d calls) name r' = GetPortMapping d name r'.
Proof.
  revert d. induction calls as [|[[svc r] l] calls IH]; intros d Hno; [done|].
  apply Forall_cons in Hno as [Hc Hno]. simpl in Hc.
  rewrite remap_all_cons, IH by done. rewrite GetPortMapping_RemapPort.
  by rewrite decide_False.
Qed.

End Remap.

(** C7: [RemapPort] returns [nil]; afterwards the remote port is not in
    the conflict list of the service and [GetPortMapping] gives the new
    local port; and on a client whose port mappings started empty, a
    (service, remote port) pair that no [RemapPort] call has named is
    mapped to the remote port itself. The conflict list is taken without
    duplicates, as the code always leaves it ([RemapPort_NoDup],
    [UpdateForwardingStatus_service_NoDup]). *)
Theorem C7_RemapPort_GetPortMapping
    (d d0 : DockerClient) (svc : ServiceStatus) (r newLocal : string)
    (calls : list (ServiceStatus * string * string)) (name r' : string)
    (Hnd : NoDup (Conflicts svc))
    (Hinit : portMappings d0 = ∅)
    (Hno : Forall (fun c : ServiceStatus * string * string =>
                     ¬ (Name c.1.1 = name ∧ c.1.2 = r')) calls) :
  (RemapPort d svc r newLocal).2 = None ∧
  (r ∉ Conflicts (RemapPort d svc r newLocal).1.2) ∧
  GetPortMapping (RemapPort d svc r newLocal).1.1 (Name svc) r = newLocal ∧
  GetPortMapping (remap_all d0 calls) name r' = r'.
Proof.
  split; [done|]. split; [|split].
  - rewrite RemapPort_Conflicts.
    destruct (contains (Conflicts svc) r) eqn:Hc.
    + by apply removeString_gone.
    + rewrite <- contains_elem. congruence.
  - rewrite GetPortMapping_RemapPort. by rewrite decide_True.
  - rewrite GetPortMapping_remap_all by done.
    unfold GetPortMapping. by rewrite Hinit, lookup_empty.
Qed.

Lemma C7_RemapPort_GetPortMapping_witness :
  let d0 := NewDockerClient 40000 in
  let svc := mkServiceStatus "web" ["3000"; "8080"] HealthRunning
                             StatusConflict [] ["3000"; "8080"] in
  let calls := [(svc, "3000", "3001")] in
  NoDup (Conflicts svc) ∧
  portMappings d0 = ∅ ∧
  Forall (fun c : ServiceStatus * string * string =>
            ¬ (Name c.1.1 = "web" ∧ c.1.2 = "8080")) calls ∧
  (RemapPort d0 svc "3000" "3001").2 = None ∧
  ("3000" ∉ Conflicts (RemapPort d0 svc "3000" "3001").1.2) ∧
  GetPortMapping (RemapPort d0 svc "3000" "3001").1.1 (Name svc) "3000" = "3001" ∧
  GetPortMapping (remap_all d0 calls) "web" "8080" = "8080".
Proof.
  intros d0 svc calls.
  assert (NoDup (Conflicts svc)) as Hnd.
  { simpl. apply NoDup_cons. split; [|apply NoDup_singleton].
    rewrite list_elem_of_singleton. discriminate. }
  assert (Forall (fun c : ServiceStatus * string * string =>
                    ¬ (Name c.1.1 = "web" ∧ c.1.2 = "8080")) calls) as Hno.
  { apply Forall_singleton. simpl. intros [_ H]. discriminate. }
  split; [exact Hnd|]. split; [reflexivity|]. split; [exact Hno|].
  exact (C7_RemapPort_GetPortMapping d0 d0 svc "3000" "3001" calls "web" "8080"
           Hnd eq_refl Hno).
Defined.

(** C10: [RemapPort] returns [nil] on every input and records the mapping
    it is given, also when the new local port is listening; it is
    [handleRemapPort] that turns such a port down, leaving all but the log
    as it was. *)
Theorem C10_RemapPort_returns_nil
    (d : DockerClient) (svc : ServiceStatus) (r l : string)
    (w : World) (port newPort : string) (localPorts : list string)
    (Hused : newPort ∈ localPorts) :
  (RemapPort d svc r l).2 = None ∧
  GetPortMapping (RemapPort d svc r l).1.1 (Name svc) r = l ∧
  GetPortMapping (RemapPort (docker w) svc port newPort).1.1 (Name svc) port
    = newPort ∧
  handleRemapPort w port newPort (Listening localPorts)
    = Returns {| ssh := ssh w;
                 rt := log_Printf (rt w)
                         ("New port " +:+ newPort +:+ " is already in use");
                 docker := docker w; display := display w |}.
Proof.
  split; [done|]. split; [|split].
  - rewrite GetPortMapping_RemapPort. by rewrite decide_True.
  - rewrite GetPortMapping_RemapPort. by rewrite decide_True.
  - unfold handleRemapPort. apply IsPortInUse_elem in Hused. by rewrite Hused.
Qed.

Lemma C10_RemapPort_returns_nil_witness :
  let w := NewWorld "user" "host:22" 40000 in
  let svc := mkServiceStatus "web" ["3000"] HealthRunning StatusConflict []
                             ["3000"] in
  "8080" ∈ ["22"; "8080"] ∧
  (RemapPort (docker w) svc "3000" "8080").2 = None ∧
  GetPortMapping (RemapPort (docker w) svc "3000" "8080").1.1 "web" "3000"
    = "8080" ∧
  handleRemapPort w "3000" "8080" (Listening ["22"; "8080"])
    = Returns {| ssh := ssh w;
                 rt := log_Printf (rt w) "New port 8080 is already in use";
                 docker := docker w; display := display w |}.
Proof.
  intros w svc.
  assert ("8080" ∈ ["22"; "8080"]) as Hused by (right; left).
  split; [exact Hused|].
  pose proof (C10_RemapPort_returns_nil (docker w) svc "3000" "8080"
                w "3000" "8080" ["22"; "8080"] Hused) as (H1 & H2 & _ & H4).
  split; [exact H1|]. split; [exact H2|]. exact H4.
Defined.

(* ===================================================================== *)
(** * Part III: further properties of the code                            *)
(* ===================================================================== *)

(** ** ssh.go: [ForwardPort] and its goroutine *)

(** X1: [ForwardPort] returns [nil], leaves the remote port mapped to the
    local port it was given (to the remote port itself when the local port
    is empty), and changes the registry entry of no other remote port. *)
Theorem ForwardPort_entry_and_frame
    (s : SSHClient) (rt : Runtime) (r l r2 : string) (Hother : r2 ≠ r) :
  (ForwardPort s rt r l).2 = None ∧
  ports (ForwardPort s rt r l).1.1 !! r = Some (if String.eqb l "" then r else l) ∧
  ports (ForwardPort s rt r l).1.1 !! r2 = ports s !! r2.
Proof.
  split; [apply ForwardPort_nil|]. split; [apply ForwardPort_registry|].
  unfold ForwardPort. destruct (ports s !! r) as [m|] eqn:Hm.
  - destruct (String.eqb m _); [done|]. simpl.
    by rewrite lookup_insert_ne, lookup_delete_ne.
  - simpl. by rewrite lookup_insert_ne.
Qed.

Lemma ForwardPort_entry_and_frame_witness :
  let s := set_ports (NewSSHClient "user" "host:22") (<["8080" := "8081"]> ∅) in
  let rt := NewRuntime [] 1 in
  "8080" ≠ "3000" ∧
  (ForwardPort s rt "3000" "").2 = None ∧
  ports (ForwardPort s rt "3000" "").1.1 !! "3000" = Some "3000" ∧
  ports (ForwardPort s rt "3000" "").1.1 !! "8080" = ports s !! "8080".
Proof.
  intros s rt.
  assert ("8080" ≠ "3000") as Hother by discriminate.
  split; [exact Hother|].
  exact (ForwardPort_entry_and_frame s rt "3000" "" "8080" Hother).
Defined.

(** X2: [ForwardPort] called again with the same arguments, nothing having
    happened in between, is a no-op: it returns [nil], and the registry,
    the goroutines, the processes and the log are as the first call left
    them. *)
Theorem ForwardPort_repeat_is_noop
    (s : SSHClient) (rt : Runtime) (r l : string) :
  ForwardPort (ForwardPort s rt r l).1.1 (ForwardPort s rt r l).1.2 r l
  = ((ForwardPort s rt r l).1.1, (ForwardPort s rt r l).1.2, None).
Proof. apply ForwardPort_idempotent. Qed.

(** X3: when [Run] returns an error in the goroutine of a session that has
    not ended, the session ends and the registry entry of its remote port
    is removed, whatever local port that entry holds by then. *)
Theorem goroutine_error_ends_session
    (s : SSHClient) (rt : Runtime) (i : nat) (e : string) (t : Task)
    (Htask : tasks rt !! i = Some t) (Hlive : is_live t = true) :
  ∃ s' rt',
    goroutine_step (ExitErr i e) s rt = Some (s', rt') ∧
    t_state <$> tasks rt' !! i = Some Ended ∧
    ports s' !! t_remotePort t = None ∧
    List.length (tasks rt') = List.length (tasks rt).
Proof.
  unfold goroutine_step. rewrite Htask.
  apply lookup_lt_Some in Htask as Hlt. unfold is_live in Hlive.
  destruct (t_state t) as [|pid|]; [| |done]; eexists _, _;
    (split; [reflexivity|]); simpl;
    (split; [by rewrite list_lookup_insert_eq|]);
    (split; [apply lookup_delete_eq|by rewrite length_insert]).
Qed.

Lemma goroutine_error_ends_session_witness :
  let s := set_ports (NewSSHClient "user" "host:22") (<["3000" := "8081"]> ∅) in
  let t := mkTask ["ssh"] "3000" "3000" (Running 1) in
  let rt := mkRuntime [t] [] 2 [] in
  tasks rt !! 0%nat = Some t ∧ is_live t = true ∧
  ∃ s' rt',
    goroutine_step (ExitErr 0 "signal: terminated") s rt = Some (s', rt') ∧
    t_state <$> tasks rt' !! 0%nat = Some Ended ∧
    ports s' !! t_remotePort t = None ∧
    List.length (tasks rt') = List.length (tasks rt).
Proof.
  intros s t rt. split; [reflexivity|]. split; [reflexivity|].
  exact (goroutine_error_ends_session s rt 0 "signal: terminated" t
           eq_refl eq_refl).
Defined.

Section GoroutineRuns.

Lemma goroutine_step_Ended_stays ev s rt s' rt' i t :
  goroutine_step ev s rt = Some (s', rt') ->
  tasks rt !! i = Some t -> t_state t = Ended ->
  tasks rt' !! i = Some t ∧ List.length (tasks rt') = List.length (tasks rt).
Proof.
  intros Hstep Ht Hst. destruct ev as [j|j|j e]; simpl in Hstep;
    destruct (tasks rt !! j) as [tj|] eqn:Hj; try done.
  - destruct (t_state tj) eqn:Hsj; try done. injection Hstep as <- <-. simpl.
    rewrite length_insert. split; [|done].
    destruct (decide (j = i)) as [->|Hne]; [congruence|].
    by rewrite list_lookup_insert_ne.
  - destruct (t_state tj) eqn:Hsj; try done.
    destruct (bool_decide _); [|done]. injection Hstep as <- <-. simpl.
    rewrite length_insert. split; [|done].
    destruct (decide (j = i)) as [->|Hne]; [congruence|].
    by rewrite list_lookup_insert_ne.
  - destruct (t_state tj) eqn:Hsj; try done; injection Hstep as <- <-; simpl;
      rewrite length_insert; (split; [|done]);
      (destruct (decide (j = i)) as [->|Hne]; [congruence|]);
      by rewrite list_lookup_insert_ne.
Qed.

End GoroutineRuns.

(** X4: no move of a goroutine revives a session or starts one: over any
    run of goroutine moves a session that has ended is still ended, and
    the number of sessions is the same. Only [ForwardPort] starts
    sessions. *)
Theorem goroutine_run_Ended_stays
    (evs : list Event) (s s' : SSHClient) (rt rt' : Runtime) (i : nat) (t : Task)
    (Hrun : goroutine_run evs s rt = Some (s', rt'))
    (Htask : tasks rt !! i = Some t) (Hended : t_state t = Ended) :
  tasks rt' !! i = Some t ∧ List.length (tasks rt') = List.length (tasks rt).
Proof.
  revert s rt Hrun Htask. induction evs as [|ev evs IH]; intros s rt Hrun Htask.
  - simpl in Hrun. by injection Hrun as <- <-.
  - simpl in Hrun.
    destruct (goroutine_step ev s rt) as [[s1 rt1]|] eqn:Hstep; [|done].
    destruct (goroutine_step_Ended_stays _ _ _ _ _ _ _ Hstep Htask Hended)
      as [Ht1 Hlen].
    destruct (IH s1 rt1 Hrun Ht1) as [Ht' Hlen']. split; [done|congruence].
Qed.

Lemma goroutine_run_Ended_stays_witness :
  let s := NewSSHClient "user" "host:22" in
  let t0 := mkTask ["ssh"] "3000" "3000" Ended in
  let t1 := mkTask ["ssh"] "8080" "8080" Starting in
  let rt := mkRuntime [t0; t1] [] 1 [] in
  ∃ s' rt',
    goroutine_run [ExecStart 1; ExitOk 1; ExecStart 1] s rt = Some (s', rt') ∧
    tasks rt !! 0%nat = Some t0 ∧ t_state t0 = Ended ∧
    tasks rt' !! 0%nat = Some t0 ∧
    List.length (tasks rt') = List.length (tasks rt).
Proof.
  intros s t0 t1 rt.
  destruct (goroutine_run [ExecStart 1; ExitOk 1; ExecStart 1] s rt)
    as [[s' rt']|] eqn:Hrun; [|vm_compute in Hrun; discriminate].
  exists s', rt'. split; [reflexivity|]. split; [reflexivity|].
  split; [reflexivity|].
  exact (goroutine_run_Ended_stays _ s s' rt rt' 0 t0 Hrun eq_refl eq_refl).
Defined.

(** ** strconv: [Itoa] and [Atoi] *)

Section ItoaAtoi.

Lemma pretty_N_char_digit d :
  (d < 10)%N ->
  is_digit (pretty_N_char d) = true ∧
  (Z.of_nat (nat_of_ascii (pretty_N_char d)) - 48 = Z.of_N d)%Z.
Proof.
  intros Hd.
  assert (d = 0 ∨ d = 1 ∨ d = 2 ∨ d = 3 ∨ d = 4 ∨ d = 5 ∨ d = 6 ∨ d = 7
          ∨ d = 8 ∨ d = 9)%N as Hcases by lia.
  repeat destruct Hcases as [->|Hcases]; try subst d; by vm_compute.
Qed.

Lemma digits_value_pretty_N_go x :
  ∀ s acc, ∃ k : Z,
    digits_value (pretty_N_go x s) acc
    = digits_value s (acc * 10 ^ k + Z.of_N x)%Z ∧ (0 ≤ k)%Z.
Proof.
  induction (N.lt_wf_0 x) as [x _ IH]. intros s acc.
  assert (x = 0 ∨ 0 < x)%N as [->|Hpos] by lia.
  - exists 0%Z. rewrite pretty_N_go_0. split; [|done]. f_equal. lia.
  - rewrite pretty_N_go_step by done.
    destruct (IH (x `div` 10)%N (N.div_lt x 10 Hpos eq_refl)
                (String (pretty_N_char (x `mod` 10)) s) acc) as (k & Hk & Hk0).
    exists (k + 1)%Z. split; [|lia]. rewrite Hk. cbn [digits_value].
    destruct (pretty_N_char_digit (x `mod` 10)%N) as [Hd Hv].
    { by apply N.mod_lt. }
    rewrite Hd, Hv. f_equal.
    rewrite Z.pow_add_r, Z.pow_1_r by lia.
    pose proof (N.div_mod x 10). rewrite N2Z.inj_mod, N2Z.inj_div.
    pose proof (Z.div_mod (Z.of_N x) 10). lia.
Qed.

Lemma digits_value_all_digits s acc v :
  digits_value s acc = Some v -> all_bytes is_digit s = true.
Proof.
  revert acc. induction s as [|c s IH]; intros acc; simpl; [done|].
  destruct (is_digit c); [|done]. simpl. apply IH.
Qed.

Lemma pretty_positive_digits p :
  digits_value (pretty (N.pos p)) 0 = Some (Z.pos p) ∧ pretty (N.pos p) ≠ "".
Proof.
  unfold pretty, pretty_N. rewrite decide_False by done.
  destruct (digits_value_pretty_N_go (N.pos p) "" 0) as (k & Hk & _).
  simpl in Hk. split; [done|].
  intros Hempty. rewrite Hempty in Hk. simpl in Hk. done.
Qed.

(** The decimal string of a number that is not negative has digits only. *)
Lemma Itoa_digits z : (0 ≤ z)%Z -> all_bytes is_digit (Itoa z) = true.
Proof.
  destruct z as [|p|p]; [done| |lia]. intros _.
  destruct (pretty_positive_digits p) as [H _].
  by apply digits_value_all_digits in H.
Qed.

Lemma Itoa_nonempty z : Itoa z ≠ "".
Proof.
  destruct z as [|p|p]; [done| |done].
  apply pretty_positive_digits.
Qed.

Lemma Atoi_unsigned s v :
  s ≠ "" -> digits_value s 0 = Some v -> (MinInt ≤ v ≤ MaxInt)%Z ->
  Atoi s = Some v.
Proof.
  intros Hne Hv Hrange. unfold Atoi. destruct s as [|c s]; [done|].
  assert (is_digit c = true) as Hc.
  { apply digits_value_all_digits in Hv. simpl in Hv.
    by apply andb_true_iff in Hv as [? _]. }
  destruct (Ascii.eqb_spec c "-") as [->|_]; [done|].
  destruct (Ascii.eqb_spec c "+") as [->|_]; [done|].
  rewrite Hv. by rewrite bool_decide_eq_true_2.
Qed.

Lemma Atoi_negative s v :
  s ≠ "" -> digits_value s 0 = Some v -> (MinInt ≤ - v ≤ MaxInt)%Z ->
  Atoi (String "-" s) = Some (- v)%Z.
Proof.
  intros Hne Hv Hrange. unfold Atoi.
  change (Ascii.eqb "-" "-") with true. cbv iota.
  destruct s as [|c s]; [done|].
  rewrite Hv. by rewrite bool_decide_eq_true_2.
Qed.

Lemma Atoi_roundtrip z : (MinInt ≤ z ≤ MaxInt)%Z -> Atoi (Itoa z) = Some z.
Proof.
  intros Hrange. destruct z as [|p|p].
  - reflexivity.
  - destruct (pretty_positive_digits p) as [Hv Hne]. by apply Atoi_unsigned.
  - destruct (pretty_positive_digits p) as [Hv Hne].
    by apply (Atoi_negative (pretty (N.pos p)) (Z.pos p)).
Qed.

End ItoaAtoi.

(** X5: [strconv.Atoi] reads back what [strconv.Itoa] printed: for every
    number of the 64-bit [int] range, [Atoi (Itoa z)] succeeds with [z]. *)
Theorem Atoi_Itoa (z : Z) (Hrange : (MinInt ≤ z ≤ MaxInt)%Z) :
  Atoi (Itoa z) = Some z.
Proof. by apply Atoi_roundtrip. Qed.

Lemma Atoi_Itoa_witness :
  (MinInt ≤ -8080 ≤ MaxInt)%Z ∧ Atoi (Itoa (-8080)) = Some (-8080)%Z.
Proof.
  assert (MinInt ≤ -8080 ≤ MaxInt)%Z as Hrange by (vm_compute; split; discriminate).
  split; [exact Hrange|]. exact (Atoi_Itoa (-8080) Hrange).
Defined.

(** ** docker.go: [extractPorts] and [parseContainerState] *)

Section ExtractPortsMore.

Lemma extractPorts_NoDup ports : NoDup (extractPorts ports).
Proof. apply range_keys_sorted_NoDup, map_keys_NoDup. Qed.

Lemma extractPorts_Sorted ports : Sorted string_le (extractPorts ports).
Proof. apply Strings_Sorted. Qed.

Lemma distinct_ports_elem ports x :
  x ∈ Itoa <$> remove_dups (filter (fun p => p ≠ 0%Z) (PublicPort <$> ports)) ↔
  ∃ p, p ∈ ports ∧ PublicPort p ≠ 0%Z ∧ x = Itoa (PublicPort p).
Proof.
  rewrite list_elem_of_fmap. split.
  - intros (z & -> & Hz). apply elem_of_remove_dups, list_elem_of_filter in Hz
      as [Hnz Hz]. apply list_elem_of_fmap in Hz as (p & -> & Hp). by exists p.
  - intros (p & Hp & Hnz & ->). exists (PublicPort p). split; [done|].
    apply elem_of_remove_dups, list_elem_of_filter. split; [done|].
    apply list_elem_of_fmap. by exists p.
Qed.

End ExtractPortsMore.

(** X6: [extractPorts] has exactly one entry for each distinct public port
    that is not zero: the list is a rearrangement of the decimal strings
    of these ports, however often and in whatever order the records name
    them. *)
Theorem extractPorts_one_entry_per_port (ports : list Port) :
  extractPorts ports ≡ₚ
    Itoa <$> remove_dups (filter (fun p => p ≠ 0%Z) (PublicPort <$> ports)) ∧
  List.length (extractPorts ports) =
    List.length (remove_dups (filter (fun p => p ≠ 0%Z) (PublicPort <$> ports))).
Proof.
  assert (extractPorts ports ≡ₚ
            Itoa <$> remove_dups (filter (fun p => p ≠ 0%Z) (PublicPort <$> ports)))
    as Hperm.
  { apply NoDup_Permutation.
    - apply extractPorts_NoDup.
    - apply (NoDup_fmap_2 _). apply NoDup_remove_dups.
    - intros x. by rewrite extractPorts_elem, distinct_ports_elem. }
  split; [exact Hperm|]. rewrite Hperm. apply length_fmap.
Qed.

(** X7: the result of [extractPorts] depends only on WHICH non-zero public
    ports occur in the records: two record lists with the same set of them
    give the same list, entry for entry. *)
Theorem extractPorts_depends_on_port_set (ports ports' : list Port)
    (Hsame : ∀ z, z ≠ 0%Z ->
               (z ∈ PublicPort <$> ports ↔ z ∈ PublicPort <$> ports')) :
  extractPorts ports = extractPorts ports'.
Proof.
  apply (Sorted_unique string_le); [apply extractPorts_Sorted..|].
  apply NoDup_Permutation; [apply extractPorts_NoDup..|].
  intros x. rewrite !extractPorts_elem. split.
  - intros (p & Hp & Hnz & ->).
    assert (PublicPort p ∈ PublicPort <$> ports') as Hin.
    { apply Hsame; [done|]. apply list_elem_of_fmap. by exists p. }
    apply list_elem_of_fmap in Hin as (q & Hq & Hin). exists q.
    by rewrite <- Hq.
  - intros (p & Hp & Hnz & ->).
    assert (PublicPort p ∈ PublicPort <$> ports) as Hin.
    { apply Hsame; [done|]. apply list_elem_of_fmap. by exists p. }
    apply list_elem_of_fmap in Hin as (q & Hq & Hin). exists q.
    by rewrite <- Hq.
Qed.

Lemma extractPorts_depends_on_port_set_witness :
  let a := mkPort "0.0.0.0" 3000 3000 "tcp" in
  let b := mkPort "::" 3000 3000 "tcp" in
  let c := mkPort "0.0.0.0" 80 80 "tcp" in
  let d := mkPort "" 5432 0 "tcp" in
  (∀ z, z ≠ 0%Z ->
        (z ∈ PublicPort <$> [a; b; c; d] ↔ z ∈ PublicPort <$> [c; a])) ∧
  extractPorts [a; b; c; d] = extractPorts [c; a].
Proof.
  intros a b c d.
  assert (∀ z, z ≠ 0%Z ->
            (z ∈ PublicPort <$> [a; b; c; d] ↔ z ∈ PublicPort <$> [c; a]))
    as Hsame.
  { intros z Hz. simpl. rewrite !elem_of_cons, !elem_of_nil. split.
    - intros [->|[->|[->|[->|[]]]]]; auto; done.
    - intros [->|[->|[]]]; auto. }
  split; [exact Hsame|].
  exact (extractPorts_depends_on_port_set [a; b; c; d] [c; a] Hsame).
Defined.

(** X8: the order in which [range] yields the keys of [portMap] (which Go
    leaves open) does not show in the result of [extractPorts]: collecting
    the keys in any order and sorting gives the same list. *)
Theorem extractPorts_iteration_order (ports : list Port) (keys : list string)
    (Hkeys : keys ≡ₚ (map_to_list (extractPorts_portMap ports)).*1) :
  range_keys_sorted keys = extractPorts ports.
Proof. by apply range_keys_sorted_perm. Qed.

Lemma extractPorts_iteration_order_witness :
  let ports := [mkPort "0.0.0.0" 80 80 "tcp"; mkPort "0.0.0.0" 443 443 "tcp"] in
  ["80"; "443"] ≡ₚ (map_to_list (extractPorts_portMap ports)).*1 ∧
  range_keys_sorted ["80"; "443"] = extractPorts ports.
Proof.
  intros ports.
  assert (["80"; "443"] ≡ₚ (map_to_list (extractPorts_portMap ports)).*1)
    as Hkeys.
  { vm_compute. apply perm_swap. }
  split; [exact Hkeys|].
  exact (extractPorts_iteration_order ports ["80"; "443"] Hkeys).
Defined.

(** X9: [parseContainerState] gives Unknown exactly for the raw states
    other than running, created, restarting, removing, paused, exited and
    dead (compared byte for byte, so "Running" is unknown); for a running
    container it gives Healthy when the status text contains "healthy" and
    Running otherwise; it never gives Starting or Unhealthy. *)
Theorem parseContainerState_table (state status : string) :
  (parseContainerState state status = HealthUnknown ↔
   state ∉ ["running"; "created"; "restarting"; "removing"; "paused";
            "exited"; "dead"]) ∧
  parseContainerState "running" status
    = (if Contains status "healthy" then HealthHealthy else HealthRunning) ∧
  parseContainerState state status ≠ HealthStarting ∧
  parseContainerState state status ≠ HealthUnhealthy.
Proof.
  split; [|split; [|split]].
  - unfold parseContainerState. rewrite !not_elem_of_cons.
    repeat (match goal with
            | |- context [String.eqb state ?b] =>
                destruct (String.eqb_spec state b) as [->|?]
            end; [split; [|intros H; exfalso; tauto];
                  repeat (match goal with
                          | |- context [if ?c then _ else _] => destruct c
                          end); discriminate|]).
    split; [|done]. intros _. repeat split; try done.
    apply not_elem_of_nil.
  - unfold parseContainerState. simpl.
    destruct (Contains status "healthy") eqn:Hh; [done|].
    destruct (Contains status "unhealthy") eqn:Hu; [|done].
    apply Contains_unhealthy in Hu. congruence.
  - unfold parseContainerState.
    repeat (match goal with
            | |- context [if ?c then _ else _] => destruct c
            end); discriminate.
  - apply parseContainerState_never_Unhealthy.
Qed.

(** ** docker.go: [UpdateForwardingStatus], [RemapPort], [removeString] *)

Section StatusMore.

Lemma existsb_IsPortInUse localPorts exposed :
  existsb (fun p => IsPortInUse p localPorts) exposed = true ↔
  ∃ p, p ∈ exposed ∧ p ∈ localPorts.
Proof.
  rewrite existsb_exists. split.
  - intros (p & Hp & Hin). exists p. split; [by apply list_elem_of_In|].
    by apply IsPortInUse_elem.
  - intros (p & Hp & Hin). exists p. split; [by apply list_elem_of_In|].
    by apply IsPortInUse_elem.
Qed.

Lemma UpdateForwardingStatus_service_same_ports localPorts svc svc0 :
  Name svc0 = Name svc -> ExposedPorts svc0 = ExposedPorts svc ->
  HealthStatus svc0 = HealthStatus svc -> LocalPorts svc0 = LocalPorts svc ->
  UpdateForwardingStatus_service localPorts svc0
  = UpdateForwardingStatus_service localPorts svc.
Proof.
  intros Hn He Hh Hl. unfold UpdateForwardingStatus_service. rewrite He.
  destruct (UpdateForwardingStatus_ports _ _) as [c st].
  unfold set_Conflicts, set_ForwardStatus. simpl. by rewrite Hn, He, Hh, Hl.
Qed.

Lemma UpdateForwardingStatus_service_fields localPorts svc :
  Name (UpdateForwardingStatus_service localPorts svc) = Name svc ∧
  HealthStatus (UpdateForwardingStatus_service localPorts svc) = HealthStatus svc ∧
  LocalPorts (UpdateForwardingStatus_service localPorts svc) = LocalPorts svc.
Proof.
  unfold UpdateForwardingStatus_service.
  by destruct (UpdateForwardingStatus_ports _ _).
Qed.

End StatusMore.

(** X10: after [UpdateForwardingStatus] has gone over a service, its
    status is Conflict exactly when its conflict list is not empty; the
    conflict list holds exposed ports only, each once, in strictly
    increasing string order. *)
Theorem UpdateForwardingStatus_status_and_conflicts
    (localPorts : list string) (svc : ServiceStatus) :
  let svc' := UpdateForwardingStatus_service localPorts svc in
  (ForwardStatus svc' = StatusConflict ↔ Conflicts svc' ≠ []) ∧
  Conflicts svc' ⊆ ExposedPorts svc' ∧
  StronglySorted string_lt (Conflicts svc').
Proof.
  intros svc'. subst svc'. split; [|split].
  - rewrite UpdateForwardingStatus_service_status. unfold status_after.
    destruct (existsb _ _) eqn:Hex.
    + split; [intros _|done].
      apply existsb_IsPortInUse in Hex as (p & Hp & Hin).
      intros Hnil.
      assert (p ∈ Conflicts (UpdateForwardingStatus_service localPorts svc)) as H
        by by apply UpdateForwardingStatus_service_Conflicts.
      rewrite Hnil in H. by apply elem_of_nil in H.
    + simpl. split.
      { by destruct (ExposedPorts svc). }
      intros Hne. exfalso.
      destruct (Conflicts (UpdateForwardingStatus_service localPorts svc))
        as [|p rest] eqn:Hc; [done|].
      assert (p ∈ Conflicts (UpdateForwardingStatus_service localPorts svc)) as H
        by (rewrite Hc; left).
      apply UpdateForwardingStatus_service_Conflicts in H as [Hp Hin].
      assert (existsb (fun p => IsPortInUse p localPorts) (ExposedPorts svc) = true)
        by (apply existsb_IsPortInUse; eauto).
      congruence.
  - intros p Hp. rewrite UpdateForwardingStatus_service_ExposedPorts.
    by apply UpdateForwardingStatus_service_Conflicts in Hp as [? _].
  - unfold UpdateForwardingStatus_service.
    destruct (UpdateForwardingStatus_ports _ _) as [c st]. simpl.
    apply range_keys_sorted_strict, map_keys_NoDup.
Qed.

(** X11: [UpdateForwardingStatus] starts every service afresh: the status
    and the conflicts an earlier run (or [RemapPort], or [forwardPorts])
    has left do not count, so that a run after a run with another scan
    gives what the later scan alone gives, and a run repeated with the same
    scan changes nothing. *)
Theorem UpdateForwardingStatus_last_scan_wins
    (d : DockerClient) (earlier later : list string) :
  UpdateForwardingStatus (UpdateForwardingStatus d (Listening earlier)).1
                         (Listening later)
  = UpdateForwardingStatus d (Listening later).
Proof.
  unfold UpdateForwardingStatus. simpl. f_equal. f_equal.
  rewrite <- map_fmap_compose. apply map_fmap_ext. intros name svc _. simpl.
  apply UpdateForwardingStatus_service_same_ports;
    [apply UpdateForwardingStatus_service_fields
    |apply UpdateForwardingStatus_service_ExposedPorts
    |apply UpdateForwardingStatus_service_fields..].
Qed.



(** X13: on a service whose conflict list has no duplicates, [RemapPort]
    takes the remapped port, and only it, out of the list; and it sets the
    status to Ready whether or not other ports are still in the list. *)
Theorem RemapPort_drops_one_conflict
    (d : DockerClient) (svc : ServiceStatus) (r l x : string)
    (Hnd : NoDup (Conflicts svc)) :
  (x ∈ Conflicts (RemapPort d svc r l).1.2 ↔ x ∈ Conflicts svc ∧ x ≠ r) ∧
  ForwardStatus (RemapPort d svc r l).1.2 = StatusReady ∧
  ExposedPorts (RemapPort d svc r l).1.2 = ExposedPorts svc ∧
  Name (RemapPort d svc r l).1.2 = Name svc.
Proof.
  split; [|by unfold RemapPort; simpl; destruct (contains _ _)].
  rewrite RemapPort_Conflicts.
  destruct (contains (Conflicts svc) r) eqn:Hc.
  - clear Hc. induction Hnd as [|v rest Hv Hnd IH]; simpl.
    + rewrite elem_of_nil. tauto.
    + destruct (String.eqb_spec v r) as [->|Hne].
      * rewrite elem_of_cons. split; [|intros [[->|?] ?]; done].
        intros Hx. split; [by right|]. by intros ->.
      * rewrite !elem_of_cons, IH. split.
        -- intros [->|[? ?]]; auto.
        -- intros [[->|?] ?]; auto.
  - split; [|tauto]. intros Hx. split; [done|]. intros ->.
    apply contains_elem in Hx. congruence.
Qed.

Lemma RemapPort_drops_one_conflict_witness :
  let svc := mkServiceStatus "web" ["3000"; "8080"] HealthRunning
                             StatusConflict [] ["3000"; "8080"] in
  let d := NewDockerClient 40000 in
  NoDup (Conflicts svc) ∧
  ("8080" ∈ Conflicts (RemapPort d svc "3000" "3001").1.2 ↔
   "8080" ∈ Conflicts svc ∧ "8080" ≠ "3000") ∧
  ForwardStatus (RemapPort d svc "3000" "3001").1.2 = StatusReady.
Proof.
  intros svc d.
  assert (NoDup (Conflicts svc)) as Hnd.
  { simpl. apply NoDup_cons. split; [|apply NoDup_singleton].
    rewrite list_elem_of_singleton. discriminate. }
  split; [exact Hnd|].
  pose proof (RemapPort_drops_one_conflict d svc "3000" "3001" "8080" Hnd)
    as (H1 & H2 & _).
  split; [exact H1|exact H2].
Defined.

(** X14: [removeString] cuts out the FIRST element equal to the string and
    nothing else: later copies stay, and a slice without the string comes
    back as it is. *)
Theorem removeString_first_occurrence
    (before after : list string) (s : string) (Hfirst : s ∉ before) :
  removeString (before ++ s :: after) s = before ++ after ∧
  removeString before s = before.
Proof.
  induction before as [|v before IH]; simpl.
  - by rewrite String.eqb_refl.
  - apply not_elem_of_cons in Hfirst as [Hne Hfirst].
    destruct (String.eqb_spec v s) as [->|_]; [done|].
    destruct (IH Hfirst) as [-> ->]. done.
Qed.

Lemma removeString_first_occurrence_witness :
  ("8080" ∉ ["3000"]) ∧
  removeString (["3000"] ++ "8080" :: ["9090"; "8080"]) "8080"
    = ["3000"] ++ ["9090"; "8080"] ∧
  removeString ["3000"] "8080" = ["3000"].
Proof.
  assert ("8080" ∉ ["3000"]) as Hfirst.
  { rewrite list_elem_of_singleton. discriminate. }
  split; [exact Hfirst|].
  exact (removeString_first_occurrence ["3000"] ["9090"; "8080"] "8080" Hfirst).
Defined.

(** ** docker.go: [GetServices] and the poll *)

Section GetServicesMore.

Lemma ForwardPort_logs s rt r l : logs (ForwardPort s rt r l).1.2 = logs rt.
Proof.
  unfold ForwardPort. destruct (ports s !! r) as [m|]; [|done].
  destruct (String.eqb m _); [done|]. simpl.
  unfold kill_existing_forward. by destruct (lsof_ti rt r) as [|pid [|? ?]].
Qed.

Lemma ForwardPort_frame s rt r l r2 :
  r2 ≠ r -> ports (ForwardPort s rt r l).1.1 !! r2 = ports s !! r2.
Proof.
  intros Hne. unfold ForwardPort. destruct (ports s !! r) as [m|] eqn:Hm.
  - destruct (String.eqb m _); [done|]. simpl.
    by rewrite lookup_insert_ne, lookup_delete_ne.
  - simpl. by rewrite lookup_insert_ne.
Qed.

Lemma forwardPorts_loop_logs exposed s rt :
  logs (forwardPorts_loop s rt exposed).1.2 = logs rt.
Proof.
  revert s rt. induction exposed as [|p rest IH]; intros s rt; simpl; [done|].
  pose proof (ForwardPort_nil s rt p p) as Hnil.
  pose proof (ForwardPort_logs s rt p p) as Hlogs.
  destruct (ForwardPort s rt p p) as [[s' rt'] e]. simpl in *. subst e.
  by rewrite IH.
Qed.

(** The registry after the loop of [forwardPorts]: its ports are mapped to
    themselves, and so is every port that was mapped to itself before. *)
Lemma forwardPorts_loop_identity exposed s rt p :
  p ∈ exposed ∨ ports s !! p = Some p ->
  ports (forwardPorts_loop s rt exposed).1.1 !! p = Some p.
Proof.
  revert s rt. induction exposed as [|q rest IH]; intros s rt Hp; simpl.
  - destruct Hp as [Hp|Hp]; [by apply elem_of_nil in Hp|done].
  - pose proof (ForwardPort_nil s rt q q) as Hnil.
    pose proof (ForwardPort_registry s rt q q) as Hq.
    assert (p ≠ q -> ports (ForwardPort s rt q q).1.1 !! p = ports s !! p) as Hfr.
    { intros Hne. by apply ForwardPort_frame. }
    destruct (ForwardPort s rt q q) as [[s' rt'] e]. simpl in *. subst e.
    apply IH. destruct (decide (p = q)) as [->|Hne].
    + right. rewrite Hq. by destruct (String.eqb q "").
    + rewrite Hfr by done. destruct Hp as [Hp|Hp]; [|by right].
      apply elem_of_cons in Hp as [->|Hp]; [done|by left].
Qed.

Lemma GetServices_loop_cons c rest s rt acc :
  Names c ≠ [] ->
  GetServices_loop s rt (c :: rest) acc
  = GetServices_loop (forwardPorts_loop s rt (extractPorts (Ports c))).1.1
                     (forwardPorts_loop s rt (extractPorts (Ports c))).1.2
                     rest (<[Name (service_of c) := service_of c]> acc).
Proof.
  intros Hn. simpl. destruct (Names c) as [|name0 names] eqn:Hc; [done|].
  unfold forwardPorts. simpl.
  pose proof (forwardPorts_loop_nil (extractPorts (Ports c)) s rt) as Hnil.
  destruct (forwardPorts_loop s rt (extractPorts (Ports c))) as [[s' rt'] e].
  simpl in *. subst e. unfold service_of, set_ForwardStatus. simpl.
  by rewrite Hc.
Qed.

Lemma GetServices_loop_named containers s rt (acc : gmap string ServiceStatus) :
  Forall (fun c => Names c ≠ []) containers ->
  ∃ s' rt',
    GetServices_loop s rt containers acc
    = (s', rt', Returns (foldl (fun m c => <[Name (service_of c) := service_of c]> m)
                               acc containers)) ∧
    logs rt' = logs rt ∧
    (∀ p, (ports s !! p = Some p ∨
           ∃ c, c ∈ containers ∧ p ∈ extractPorts (Ports c)) ->
          ports s' !! p = Some p).
Proof.
  revert s rt acc. induction containers as [|c rest IH]; intros s rt acc Hall.
  - exists s, rt. split; [done|]. split; [done|].
    intros p [Hp|(c & Hc & _)]; [done|]. by apply elem_of_nil in Hc.
  - apply Forall_cons in Hall as [Hc Hall].
    rewrite GetServices_loop_cons by done.
    destruct (IH (forwardPorts_loop s rt (extractPorts (Ports c))).1.1
                 (forwardPorts_loop s rt (extractPorts (Ports c))).1.2
                 (<[Name (service_of c) := service_of c]> acc) Hall)
      as (s' & rt' & Hloop & Hlogs & Hports).
    exists s', rt'. split; [exact Hloop|].
    split; [by rewrite Hlogs, forwardPorts_loop_logs|].
    intros p Hp. apply Hports.
    destruct Hp as [Hp|(c0 & Hc0 & Hp)].
    + left. apply forwardPorts_loop_identity. by right.
    + apply elem_of_cons in Hc0 as [->|Hc0].
      * left. apply forwardPorts_loop_identity. by left.
      * right. by exists c0.
Qed.

Lemma services_of_from (acc : gmap string ServiceStatus) containers name svc :
  foldl (fun m c => <[Name (service_of c) := service_of c]> m) acc containers
    !! name = Some svc ->
  acc !! name = Some svc ∨ ∃ c, c ∈ containers ∧ svc = service_of c ∧ Name svc = name.
Proof.
  revert acc. induction containers as [|c rest IH]; intros acc; simpl; [by left|].
  intros H. apply IH in H as [H|(c0 & Hc0 & -> & Hn)].
  - destruct (decide (Name (service_of c) = name)) as [<-|Hne].
    + rewrite lookup_insert_eq in H. injection H as <-. right. exists c.
      split; [left|done].
    + rewrite lookup_insert_ne in H by done. by left.
  - right. exists c0. split; [by right|done].
Qed.

End GetServicesMore.

(** X15: on a decoded response in which every record has a name,
    [GetServices] returns a map and [nil]: the map has, under the first
    name of each record without one leading slash, the service with the
    ports of [extractPorts], the health of [parseContainerState], the status
    Forwarded and no conflicts (of two records with one name the later
    stays); nothing is logged. *)
Theorem GetServices_returns_services_of_records
    (s : SSHClient) (rt : Runtime) (containers : list Container)
    (Hnamed : Forall (fun c => Names c ≠ []) containers) :
  ∃ s' rt',
    GetServices s rt (Decoded containers)
    = (s', rt', Returns (Some (services_of containers), None)) ∧
    logs rt' = logs rt.
Proof.
  destruct (GetServices_loop_named containers s rt ∅ Hnamed)
    as (s' & rt' & Hloop & Hlogs & _).
  exists s', rt'. split; [|done]. unfold GetServices. by rewrite Hloop.
Qed.

Lemma GetServices_returns_services_of_records_witness :
  let web := mkContainer "1" ["/web"; "/alias"] "running" "Up (healthy)"
                         [mkPort "0.0.0.0" 3000 3000 "tcp"] in
  let db := mkContainer "2" ["/db"] "exited" "Exited (0)" [] in
  Forall (fun c => Names c ≠ []) [web; db] ∧
  ∃ s' rt',
    GetServices (NewSSHClient "user" "host:22") (NewRuntime [] 1)
                (Decoded [web; db])
    = (s', rt', Returns (Some (services_of [web; db]), None)) ∧
    logs rt' = logs (NewRuntime [] 1).
Proof.
  intros web db.
  assert (Forall (fun c => Names c ≠ []) [web; db]) as Hnamed
    by (repeat constructor; discriminate).
  split; [exact Hnamed|].
  exact (GetServices_returns_services_of_records _ _ [web; db] Hnamed).
Defined.

(** X16: a poll puts the registry back to the identity. After a refresh
    that returns, every exposed port of every service of the new map is
    forwarded to the local port of the same number, whatever local port it
    was forwarded to before, while the port mappings, which the poll does
    not touch, still answer as before the poll. *)
Theorem poll_forwards_every_port_to_itself
    (w w' : World) (containers : list Container) (name : string)
    (svc : ServiceStatus) (p : string)
    (Hrefresh : updateServices w (Decoded containers) = Returns w')
    (Hsvc : services (docker w') !! name = Some svc)
    (Hport : p ∈ ExposedPorts svc) :
  ports (ssh w') !! p = Some p ∧
  portMappings (docker w') = portMappings (docker w) ∧
  GetPortMapping (docker w') name p = GetPortMapping (docker w) name p.
Proof.
  apply updateServices_Decoded in Hrefresh as (s' & rt' & svcs & Hloop & ->).
  simpl in *. split; [|done].
  assert (Forall (fun c => Names c ≠ []) containers) as Hnamed.
  { apply Forall_forall. intros c Hc Hn.
    destruct (GetServices_loop_panics containers (ssh w) (rt w) ∅) as (? & ? & H).
    { by exists c. }
    congruence. }
  destruct (GetServices_loop_named containers (ssh w) (rt w) ∅ Hnamed)
    as (s2 & rt2 & Hloop2 & _ & Hports).
  rewrite Hloop in Hloop2. injection Hloop2 as -> -> ->.
  apply Hports. right.
  apply services_of_from in Hsvc as [Hsvc|(c & Hc & -> & _)].
  { by rewrite lookup_empty in Hsvc. }
  by exists c.
Qed.

Lemma poll_forwards_every_port_to_itself_witness :
  let w0 := NewWorld "user" "host:22" 40000 in
  let w := {| ssh := (ForwardPort (ssh w0) (rt w0) "3000" "3001").1.1;
              rt := (ForwardPort (ssh w0) (rt w0) "3000" "3001").1.2;
              docker := (RemapPort (docker w0)
                           (mkServiceStatus "web" ["3000"] HealthRunning
                                            StatusConflict [] ["3000"])
                           "3000" "3001").1.1;
              display := display w0 |} in
  let web := mkContainer "1" ["/web"] "running" "Up"
                         [mkPort "0.0.0.0" 3000 3000 "tcp"] in
  ∃ w',
    updateServices w (Decoded [web]) = Returns w' ∧
    services (docker w') !! "web" = Some (service_of web) ∧
    "3000" ∈ ExposedPorts (service_of web) ∧
    ports (ssh w) !! "3000" = Some "3001" ∧
    ports (ssh w') !! "3000" = Some "3000" ∧
    GetPortMapping (docker w') "web" "3000" = "3001".
Proof.
  intros w0 w web.
  destruct (updateServices w (Decoded [web])) as [w'| |] eqn:Hrefresh;
    [|vm_compute in Hrefresh; discriminate..].
  exists w'.
  assert (services (docker w') !! "web" = Some (service_of web)) as Hsvc.
  { vm_compute in Hrefresh. injection Hrefresh as <-. vm_compute. reflexivity. }
  assert ("3000" ∈ ExposedPorts (service_of web)) as Hport.
  { vm_compute. left. }
  split; [reflexivity|]. split; [exact Hsvc|]. split; [exact Hport|].
  split; [vm_compute; reflexivity|].
  destruct (poll_forwards_every_port_to_itself w w' [web] "web" (service_of web)
              "3000" Hrefresh Hsvc Hport) as (H1 & _ & H3).
  split; [exact H1|]. rewrite H3. vm_compute. reflexivity.
Defined.

(** ** ssh.go: [ForwardPorts] *)

Section ForwardPortsMore.

Lemma ForwardPorts_each_nil L s rt portMap :
  (ForwardPorts_each s rt L portMap).2 = None.
Proof.
  revert s rt. induction L as [|r rest IH]; intros s rt; simpl; [done|].
  pose proof (ForwardPort_nil s rt r (default "" (portMap !! r))) as Hnil.
  destruct (ForwardPort s rt r _) as [[s' rt'] e]. simpl in Hnil. subst e.
  apply IH.
Qed.

(** The registry after the calls for a list of remote ports. *)
Lemma ForwardPorts_each_registry L s rt portMap r :
  (r ∈ L -> ports (ForwardPorts_each s rt L portMap).1.1 !! r
            = Some (ForwardPorts_local portMap r)) ∧
  (r ∉ L -> ports (ForwardPorts_each s rt L portMap).1.1 !! r = ports s !! r).
Proof.
  revert s rt. induction L as [|q rest IH]; intros s rt; simpl.
  - split; [intros H; by apply elem_of_nil in H|done].
  - pose proof (ForwardPort_nil s rt q (default "" (portMap !! q))) as Hnil.
    pose proof (ForwardPort_registry s rt q (default "" (portMap !! q))) as Hq.
    pose proof (fun Hne => ForwardPort_frame s rt q (default "" (portMap !! q)) r Hne)
      as Hfr.
    destruct (ForwardPort s rt q _) as [[s' rt'] e]. simpl in *. subst e.
    destruct (IH s' rt') as [IHin IHout].
    destruct (decide (r ∈ rest)) as [Hin|Hout].
    + split; [intros _; by apply IHin|].
      intros Hn. exfalso. apply Hn. by right.
    + rewrite IHout by done. split.
      * intros Hr. apply elem_of_cons in Hr as [->|Hr]; [|done]. exact Hq.
      * intros Hn. apply not_elem_of_cons in Hn as [Hne _]. by apply Hfr.
Qed.

Lemma ForwardPorts_loop_no_error exposed s rt portMap :
  ForwardPorts_loop s rt exposed portMap = Diverges ∨
  ∃ s' rt', ForwardPorts_loop s rt exposed portMap = Returns (s', rt', None).
Proof.
  revert s rt. induction exposed as [|r rest IH]; intros s rt;
    cbn [ForwardPorts_loop].
  - right. by eexists _, _.
  - destruct (Contains r "-").
    + destruct (Split r "-") as [|a [|b [|? ?]]]; try apply IH.
      destruct (Atoi a) as [start|]; [|apply IH].
      destruct (Atoi b) as [end_|]; [|apply IH].
      destruct (bool_decide _); [by left|].
      pose proof (ForwardPorts_each_nil
                    (Itoa <$> seqZ start (end_ - start + 1)) s rt portMap) as Hnil.
      destruct (ForwardPorts_each s rt _ portMap) as [[s' rt'] e].
      simpl in Hnil. subst e. apply IH.
    + pose proof (ForwardPorts_each_nil [r] s rt portMap) as Hnil.
      destruct (ForwardPorts_each s rt [r] portMap) as [[s' rt'] e].
      simpl in Hnil. subst e. apply IH.
Qed.



Lemma all_bytes_impl (P Q : ascii -> bool) s :
  (∀ c, P c = true -> Q c = true) -> all_bytes P s = true -> all_bytes Q s = true.
Proof.
  intros HPQ. induction s as [|c s IH]; simpl; [done|].
  rewrite !andb_true_iff. intros [Hc Hs]. auto.
Qed.

Lemma Split_no_byte s sep : no_byte sep s = true -> Split s sep = [s].
Proof.
  induction s as [|c s IH]; simpl; [done|].
  unfold no_byte in *. simpl. rewrite andb_true_iff, negb_true_iff.
  intros [Hc Hs]. rewrite Hc. by rewrite (IH Hs).
Qed.

Lemma Split_at_first s sep rest :
  no_byte sep s = true ->
  Split (s +:+ String sep rest) sep = s :: Split rest sep.
Proof.
  induction s as [|c s IH]; simpl.
  - intros _. by rewrite Ascii.eqb_refl.
  - unfold no_byte in *. simpl. rewrite andb_true_iff, negb_true_iff.
    intros [Hc Hs]. rewrite Hc. by rewrite (IH Hs).
Qed.

Lemma Contains_app_l s1 s2 sub :
  Contains s2 sub = true -> Contains (s1 +:+ s2) sub = true.
Proof.
  intros H. induction s1 as [|c s1 IH]; simpl; [done|].
  rewrite IH. apply orb_true_r.
Qed.

Lemma HasPrefix_empty s : HasPrefix s "" = true.
Proof. by destruct s. Qed.

Lemma Contains_head c s : Contains (String c s) (String c "") = true.
Proof.
  apply Contains_prefix. rewrite HasPrefix_cons.
  destruct (ascii_dec c c); [apply HasPrefix_empty|done].
Qed.

Lemma digit_not_byte c sep : is_digit sep = false -> is_digit c = true ->
  negb (Ascii.eqb c sep) = true.
Proof.
  intros Hsep Hc. apply negb_true_iff. destruct (Ascii.eqb_spec c sep); congruence.
Qed.

Lemma Itoa_no_dash z : (0 ≤ z)%Z -> no_byte "-" (Itoa z) = true.
Proof.
  intros Hz. apply (all_bytes_impl is_digit); [|by apply Itoa_digits].
  intros c. by apply digit_not_byte.
Qed.

End ForwardPortsMore.

(** X17: [ForwardPorts] never returns an error: it returns [nil], or (on a
    port range that ends at the largest [int]) does not return. The branch
    of [handleRemapPort] that logs "Failed to forward remapped port" cannot
    be taken. *)
Theorem ForwardPorts_no_error
    (s : SSHClient) (rt : Runtime) (svc : ServiceStatus)
    (portMap : gmap string string) :
  ForwardPorts s rt svc portMap = Diverges ∨
  ∃ s' rt', ForwardPorts s rt svc portMap = Returns (s', rt', None).
Proof. apply ForwardPorts_loop_no_error. Qed.

(** X18: an exposed port of the form "start-end" with
    [0 <= start] and [end] below the largest [int] is expanded by
    [ForwardPorts]: after the call every port of the range is in the
    registry, forwarded to the local port that [portMap] names for it, and
    to itself when [portMap] names none. *)
Theorem ForwardPorts_expands_range
    (s : SSHClient) (rt : Runtime) (svc : ServiceStatus)
    (portMap : gmap string string) (start end_ i : Z)
    (Hexposed : ExposedPorts svc = [Itoa start +:+ "-" +:+ Itoa end_])
    (Hstart : (0 ≤ start)%Z) (Hend : (end_ < MaxInt)%Z)
    (Hi : (start ≤ i ≤ end_)%Z) :
  ∃ s' rt',
    ForwardPorts s rt svc portMap = Returns (s', rt', None) ∧
    ports s' !! Itoa i = Some (ForwardPorts_local portMap (Itoa i)).
Proof.
  unfold ForwardPorts. rewrite Hexposed. cbn [ForwardPorts_loop].
  change (Itoa start +:+ "-" +:+ Itoa end_)
    with (Itoa start +:+ String "-" (Itoa end_)).
  rewrite Contains_app_l by apply Contains_head.
  rewrite Split_at_first by (by apply Itoa_no_dash).
  rewrite Split_no_byte by (apply Itoa_no_dash; lia).
  assert (MinInt ≤ 0)%Z as Hmin by (vm_compute; discriminate).
  rewrite !Atoi_roundtrip by lia.
  rewrite bool_decide_eq_false_2 by lia.
  pose proof (ForwardPorts_each_nil
                (Itoa <$> seqZ start (end_ - start + 1)) s rt portMap) as Hnil.
  destruct (ForwardPorts_each_registry
              (Itoa <$> seqZ start (end_ - start + 1)) s rt portMap (Itoa i))
    as [Hin _].
  destruct (ForwardPorts_each s rt _ portMap) as [[s' rt'] e].
  simpl in *. subst e. exists s', rt'. split; [done|]. apply Hin.
  apply list_elem_of_fmap. exists i. split; [done|]. apply elem_of_seqZ. lia.
Qed.

Lemma ForwardPorts_expands_range_witness :
  let svc := mkServiceStatus "web" ["9000-9002"] HealthRunning
                             StatusNotForwarded [] [] in
  let portMap : gmap string string := <["9001" := "19001"]> ∅ in
  ExposedPorts svc = [Itoa 9000 +:+ "-" +:+ Itoa 9002] ∧
  (0 ≤ 9000)%Z ∧ (9002 < MaxInt)%Z ∧ (9000 ≤ 9001 ≤ 9002)%Z ∧
  ∃ s' rt',
    ForwardPorts (NewSSHClient "user" "host:22") (NewRuntime [] 1) svc portMap
    = Returns (s', rt', None) ∧
    ports s' !! Itoa 9001 = Some (ForwardPorts_local portMap (Itoa 9001)).
Proof.
  intros svc portMap.
  assert (ExposedPorts svc = [Itoa 9000 +:+ "-" +:+ Itoa 9002]) as Hexposed
    by (vm_compute; reflexivity).
  assert (0 ≤ 9000)%Z as Hstart by lia.
  assert (9002 < MaxInt)%Z as Hend by (vm_compute; reflexivity).
  assert (9000 ≤ 9001 ≤ 9002)%Z as Hi by lia.
  split; [exact Hexposed|]. split; [exact Hstart|]. split; [exact Hend|].
  split; [exact Hi|].
  exact (ForwardPorts_expands_range _ _ svc portMap 9000 9002 9001
           Hexposed Hstart Hend Hi).
Defined.

(** ** display.go: [handleRemapPort] and [UpdateServices] *)

Section DisplayMore.



Lemma Name_le_trans :
  Transitive (fun a b : ServiceStatus => string_le (Name a) (Name b)).
Proof. intros a b c. apply string_le_trans. Qed.

Lemma Name_le_total :
  Total (fun a b : ServiceStatus => string_le (Name a) (Name b)).
Proof. intros a b. apply string_le_total. Qed.

Lemma keyed_by_name_NoDup (svcs : gmap string ServiceStatus) :
  (∀ k svc, svcs !! k = Some svc -> Name svc = k) ->
  NoDup (Name <$> (map_to_list svcs).*2).
Proof.
  intros Hkeys.
  assert (Name <$> (map_to_list svcs).*2 = (map_to_list svcs).*1) as ->.
  { rewrite <- list_fmap_compose. apply list_fmap_ext.
    intros i [k svc] Hi. simpl.
    apply Hkeys, elem_of_map_to_list. by eapply list_elem_of_lookup_2. }
  apply NoDup_fst_map_to_list.
Qed.

Lemma NoDup_fmap_filter {A B} (f : A -> B) (P : A -> Prop)
    `{∀ x, Decision (P x)} (l : list A) :
  NoDup (f <$> l) -> NoDup (f <$> filter P l).
Proof.
  induction l as [|x l IH]; simpl; [done|].
  rewrite NoDup_cons. intros [Hx Hnd]. rewrite filter_cons.
  destruct (decide (P x)); [|by apply IH]. simpl.
  apply NoDup_cons. split; [|by apply IH].
  intros Hin. apply Hx. apply list_elem_of_fmap in Hin as (y & Hy & Hin).
  apply list_elem_of_filter in Hin as [_ Hin].
  apply list_elem_of_fmap. by exists y.
Qed.

End DisplayMore.



(** X20: [DisplayManager.UpdateServices], given a map in which every
    service is stored under its own name (as [GetServices] makes it),
    leaves as current services exactly the services of the map that expose
    a port, in strictly increasing order of their names; the selection is
    not touched. *)
Theorem Display_UpdateServices_lists_services_with_ports
    (dm : DisplayManager) (svcs : gmap string ServiceStatus) (svc : ServiceStatus)
    (Hkeys : ∀ k sv, svcs !! k = Some sv -> Name sv = k) :
  (svc ∈ currentServices (Display_UpdateServices dm svcs) ↔
   svcs !! Name svc = Some svc ∧ ExposedPorts svc ≠ []) ∧
  StronglySorted (fun a b => string_lt (Name a) (Name b))
                 (currentServices (Display_UpdateServices dm svcs)) ∧
  selectedService (Display_UpdateServices dm svcs) = selectedService dm.
Proof.
  unfold Display_UpdateServices. simpl. split; [|split; [|done]].
  - rewrite merge_sort_Permutation, list_elem_of_filter, list_elem_of_fmap.
    split.
    + intros [Hlen ([k sv] & -> & Hin)]. simpl in *.
      apply elem_of_map_to_list in Hin. rewrite (Hkeys _ _ Hin).
      split; [done|]. intros Hnil. rewrite Hnil in Hlen. simpl in Hlen. lia.
    + intros [Hin Hne]. split.
      * destruct (ExposedPorts svc); [done|]. simpl. lia.
      * exists (Name svc, svc). split; [done|]. by apply elem_of_map_to_list.
  - set (withPorts := filter _ _).
    assert (NoDup (Name <$> withPorts)) as Hnd.
    { apply NoDup_fmap_filter. by apply keyed_by_name_NoDup. }
    assert (NoDup (Name <$> merge_sort
                     (fun a b => string_le (Name a) (Name b)) withPorts)) as Hnd'.
    { by rewrite merge_sort_Permutation. }
    pose proof (@StronglySorted_merge_sort _
                  (fun a b => string_le (Name a) (Name b)) _
                  Name_le_trans Name_le_total withPorts) as Hs.
    induction Hs as [|x xs Hxs IH Hall]; [constructor|].
    simpl in Hnd'. apply NoDup_cons in Hnd' as [Hx Hnd'].
    constructor; [auto|].
    rewrite Forall_forall in Hall |- *. intros y Hy.
    apply string_le_lt; [auto|]. intros Heq. apply Hx.
    rewrite Heq. apply list_elem_of_fmap. by exists y.
Qed.

Lemma Display_UpdateServices_lists_services_with_ports_witness :
  let web := mkContainer "1" ["/web"] "running" "Up"
                         [mkPort "0.0.0.0" 3000 3000 "tcp"] in
  let db := mkContainer "2" ["/db"] "running" "Up" [] in
  let api := mkContainer "3" ["/api"] "running" "Up"
                         [mkPort "0.0.0.0" 8080 8080 "tcp"] in
  let svcs := services_of [web; db; api] in
  let dm := display (NewWorld "user" "host:22" 40000) in
  (∀ k sv, svcs !! k = Some sv -> Name sv = k) ∧
  currentServices (Display_UpdateServices dm svcs)
    = [service_of api; service_of web] ∧
  (service_of db ∈ currentServices (Display_UpdateServices dm svcs) ↔
   svcs !! Name (service_of db) = Some (service_of db) ∧
   ExposedPorts (service_of db) ≠ []).
Proof.
  intros web db api svcs dm.
  assert (∀ k sv, svcs !! k = Some sv -> Name sv = k) as Hkeys.
  { intros k sv H. apply services_of_from in H as [H|(c & _ & _ & Hn)]; [|done].
    by rewrite lookup_empty in H. }
  split; [exact Hkeys|]. split; [vm_compute; reflexivity|].
  exact (proj1 (Display_UpdateServices_lists_services_with_ports
                  dm svcs (service_of db) Hkeys)).
Defined.

(** ** display.go: [truncateString] *)

Section Truncate.

Lemma length_substring_0 n s :
  (n <= String.length s)%nat -> String.length (String.substring 0 n s) = n.
Proof.
  revert n. induction s as [|c s IH]; intros [|n]; simpl; try done; try lia.
  intros H. rewrite IH; lia.
Qed.

Lemma length_append s1 s2 :
  String.length (s1 +:+ s2) = (String.length s1 + String.length s2)%nat.
Proof. induction s1 as [|c s1 IH]; simpl; [done|]. by rewrite IH. Qed.

End Truncate.

(** X21: for a bound of at least 3, [truncateString] returns a string of
    at most [maxLen] bytes: the string itself when it fits, and otherwise
    its first [maxLen - 3] bytes followed by three dots, [maxLen] bytes in
    all. *)
Theorem truncateString_bounded (s : string) (maxLen : Z) (Hmax : (3 ≤ maxLen)%Z) :
  ∃ r, truncateString s maxLen = Returns r ∧
       (Z.of_nat (String.length r) ≤ maxLen)%Z ∧
       ((Z.of_nat (String.length s) ≤ maxLen)%Z -> r = s) ∧
       ((maxLen < Z.of_nat (String.length s))%Z ->
        r = String.substring 0 (Z.to_nat (maxLen - 3)) s +:+ "..." ∧
        Z.of_nat (String.length r) = maxLen).
Proof.
  unfold truncateString. case_bool_decide as Hfit.
  - exists s. repeat split; [done..|lia|lia].
  - rewrite bool_decide_eq_false_2 by lia. eexists. split; [done|].
    assert (String.length
              (String.substring 0 (Z.to_nat (maxLen - 3)) s +:+ "...")
            = Z.to_nat maxLen) as Hlen.
    { rewrite length_append, length_substring_0 by lia. simpl. lia. }
    rewrite Hlen. repeat split; lia.
Qed.

Lemma truncateString_bounded_witness :
  (3 ≤ 10)%Z ∧
  ∃ r, truncateString "/usr/bin/python3 -m http.server" 10 = Returns r ∧
       (Z.of_nat (String.length r) ≤ 10)%Z ∧ r = "/usr/bi...".
Proof.
  assert (3 ≤ 10)%Z as Hmax by lia. split; [exact Hmax|].
  destruct (truncateString_bounded "/usr/bin/python3 -m http.server" 10 Hmax)
    as (r & Hr & Hlen & _ & Hlong).
  exists r. split; [exact Hr|]. split; [exact Hlen|].
  apply Hlong. vm_compute. reflexivity.
Defined.



(** ** config.go: the server list *)

Section ConfigFacts.

Import Config.

Lemma name_in_elem servers name :
  name_in servers name = true ↔ name ∈ Config.Name <$> servers.
Proof.
  induction servers as [|sv rest IH]; simpl.
  - split; [done|]. intros H. by apply elem_of_nil in H.
  - rewrite elem_of_cons. destruct (String.eqb_spec (Config.Name sv) name) as [->|Hne].
    + split; auto.
    + rewrite IH. split; [auto|]. intros [H|H]; [congruence|done].
Qed.

Lemma name_in_app servers1 servers2 name :
  name_in (servers1 ++ servers2) name
  = name_in servers1 name || name_in servers2 name.
Proof.
  induction servers1 as [|sv rest IH]; simpl; [done|].
  by destruct (String.eqb (Config.Name sv) name).
Qed.

Lemma name_in_valid_nonempty servers name :
  Forall (fun sv => isValid sv = true) servers ->
  name_in servers name = true -> name ≠ "".
Proof.
  intros Hall Hin. apply name_in_elem, list_elem_of_fmap in Hin as (sv & -> & Hsv).
  rewrite Forall_forall in Hall. specialize (Hall sv Hsv).
  unfold isValid in Hall. rewrite !andb_true_iff, !negb_true_iff in Hall.
  destruct Hall as [[[Hn _] _] _]. intros Heq. rewrite Heq in Hn. done.
Qed.

Lemma filter_isValid_Forall servers :
  Forall (fun sv => isValid sv = true) (List.filter isValid servers).
Proof.
  apply Forall_forall. intros sv Hsv. apply list_elem_of_In in Hsv.
  by apply filter_In in Hsv as [_ ?].
Qed.

Lemma filter_isValid_id servers :
  Forall (fun sv => isValid sv = true) servers ->
  List.filter isValid servers = servers.
Proof.
  induction 1 as [|sv rest Hsv Hall IH]; simpl; [done|]. by rewrite Hsv, IH.
Qed.

Lemma validateAndCleanup_unfold c :
  validateAndCleanup c =
  let servers := List.filter isValid (Servers c) in
  let def := if name_in servers (DefaultServer c) then DefaultServer c else "" in
  let cur := if name_in servers (CurrentServer c) then CurrentServer c else def in
  match servers with
  | first :: _ =>
      if String.eqb def ""
      then {| Servers := servers; CurrentServer := Config.Name first;
              DefaultServer := Config.Name first |}
      else {| Servers := servers; CurrentServer := cur; DefaultServer := def |}
  | [] => {| Servers := servers; CurrentServer := cur; DefaultServer := def |}
  end.
Proof.
  unfold validateAndCleanup, isServerNameValid. simpl.
  destruct (name_in (List.filter isValid (Servers c)) (DefaultServer c)); simpl;
    destruct (name_in (List.filter isValid (Servers c)) (CurrentServer c)); simpl;
    destruct (List.filter isValid (Servers c)); simpl; try done;
    by destruct (String.eqb _ _).
Qed.

Lemma validateAndCleanup_result c :
  Servers (validateAndCleanup c) = List.filter isValid (Servers c) ∧
  ((Servers (validateAndCleanup c) = [] ∧
    DefaultServer (validateAndCleanup c) = "" ∧
    CurrentServer (validateAndCleanup c) = "") ∨
   selections_valid (validateAndCleanup c)).
Proof.
  rewrite validateAndCleanup_unfold. cbv zeta.
  pose proof (filter_isValid_Forall (Servers c)) as Hall.
  destruct (List.filter isValid (Servers c)) as [|first rest] eqn:Hf.
  - simpl. split; [done|]. by left.
  - destruct (name_in (first :: rest) (DefaultServer c)) eqn:Hd.
    + pose proof (name_in_valid_nonempty _ _ Hall Hd) as Hne.
      destruct (String.eqb_spec (DefaultServer c) ""); [done|].
      destruct (name_in (first :: rest) (CurrentServer c)) eqn:Hc;
        (split; [done|]); right; by split.
    + simpl String.eqb. cbv iota. split; [done|]. right.
      unfold selections_valid. simpl. by rewrite String.eqb_refl.
Qed.

(** A configuration with valid servers and valid selections is left as it
    is. *)
Lemma validateAndCleanup_fixed c :
  Forall (fun sv => isValid sv = true) (Servers c) ->
  (Servers c = [] ∧ DefaultServer c = "" ∧ CurrentServer c = "") ∨
  selections_valid c ->
  validateAndCleanup c = c.
Proof.
  intros Hall Hsel. rewrite validateAndCleanup_unfold. cbv zeta.
  rewrite (filter_isValid_id _ Hall). destruct c as [servers cur def].
  unfold selections_valid in Hsel. simpl in *.
  destruct Hsel as [(-> & -> & ->)|[Hd Hc]]; [done|].
  rewrite Hd, Hc. destruct servers as [|first rest]; [done|].
  pose proof (name_in_valid_nonempty _ _ Hall Hd) as Hne.
  by destruct (String.eqb_spec def "").
Qed.

Lemma remove_first_spec servers name servers' :
  remove_first servers name = Some servers' ->
  List.length servers = S (List.length servers') ∧
  (∀ n, n ≠ name -> name_in servers' n = name_in servers n) ∧
  (NoDup (Config.Name <$> servers) ->
   NoDup (Config.Name <$> servers') ∧ name_in servers' name = false).
Proof.
  revert servers'. induction servers as [|sv rest IH]; intros servers'; simpl;
    [done|].
  destruct (String.eqb_spec (Config.Name sv) name) as [Hn|Hn].
  - intros [= <-]. split; [done|]. split.
    + intros n Hne. destruct (String.eqb_spec (Config.Name sv) n); congruence.
    + rewrite NoDup_cons. intros [Hnot Hnd]. split; [done|].
      destruct (name_in rest name) eqn:Hin; [|done].
      apply name_in_elem in Hin. rewrite Hn in Hnot. done.
  - destruct (remove_first rest name) as [rest'|] eqn:Hr; [|done].
    intros [= <-]. destruct (IH rest' eq_refl) as (Hlen & Hother & Hnd).
    simpl. split; [lia|]. split.
    + intros n Hne. rewrite Hother by done. done.
    + rewrite !NoDup_cons. intros [Hnot Hnd']. destruct (Hnd Hnd') as [Hnd2 Hout].
      split.
      * split; [|done]. intros Hin. apply Hnot.
        apply name_in_elem in Hin. apply name_in_elem.
        destruct (decide (Config.Name sv = name)) as [|Hne]; [done|].
        by rewrite <- Hother.
      * destruct (String.eqb_spec (Config.Name sv) name); [done|]. done.
Qed.

Lemma remove_first_None servers name :
  remove_first servers name = None ↔ name_in servers name = false.
Proof.
  induction servers as [|sv rest IH]; simpl; [done|].
  destruct (String.eqb (Config.Name sv) name); [done|].
  destruct (remove_first rest name); rewrite <- IH; done.
Qed.

End ConfigFacts.

Section ConfigFacts2.

Import Config.


Lemma find_server_None_nil name : find_server [] name = None.
Proof. done. Qed.

End ConfigFacts2.

(** X23: [validateAndCleanup] keeps exactly the valid servers (all four
    fields non-empty), in their order; afterwards either no server is left
    and both selections are empty, or the default and the current server
    both name servers of the list; and cleaning up again changes
    nothing. *)
Theorem validateAndCleanup_selections (c : Config.Config) :
  let c' := Config.validateAndCleanup c in
  Config.Servers c' = List.filter Config.isValid (Config.Servers c) ∧
  Forall (fun sv => Config.isValid sv = true) (Config.Servers c') ∧
  ((Config.Servers c' = [] ∧ Config.DefaultServer c' = "" ∧
    Config.CurrentServer c' = "") ∨ Config.selections_valid c') ∧
  Config.validateAndCleanup c' = c'.
Proof.
  intros c'. subst c'.
  destruct (validateAndCleanup_result c) as [Hs Hsel].
  assert (Forall (fun sv => Config.isValid sv = true)
                 (Config.Servers (Config.validateAndCleanup c))) as Hall.
  { rewrite Hs. apply filter_isValid_Forall. }
  split; [done|]. split; [done|]. split; [done|].
  by apply validateAndCleanup_fixed.
Qed.

(** X24: [AddServer] with a name that no server has appends the server at
    the end and returns whatever [Save] returns: the server is in the
    configuration in memory also when saving has failed. Distinct names
    stay distinct, and the selections name servers afterwards (the first
    server added becomes default and current). *)
Theorem AddServer_fresh_name
    (c : Config.Config) (name host user keyPath : string)
    (saveErr : option string)
    (Hfresh : Config.name_in (Config.Servers c) name = false)
    (Hnd : Config.names_distinct c)
    (Hsel : Config.Servers c = [] ∨ Config.selections_valid c) :
  let c' := (Config.AddServer c name host user keyPath saveErr).1 in
  Config.Servers c'
    = Config.Servers c ++ [Config.mkServerConfig name host user keyPath] ∧
  (Config.AddServer c name host user keyPath saveErr).2 = Config.Save saveErr ∧
  Config.names_distinct c' ∧
  Config.selections_valid c'.
Proof.
  intros c'. subst c'. unfold Config.AddServer. rewrite Hfresh.
  assert (Config.names_distinct
            {| Config.Servers := Config.Servers c ++
                 [Config.mkServerConfig name host user keyPath];
               Config.CurrentServer := ""; Config.DefaultServer := "" |}) as Hnd'.
  { unfold Config.names_distinct in *. simpl. rewrite fmap_app. simpl.
    apply NoDup_app. split; [done|]. split; [|apply NoDup_singleton].
    intros n Hn Hn'. apply list_elem_of_singleton in Hn'. subst n.
    apply name_in_elem in Hn. congruence. }
  destruct (Nat.eqb_spec (List.length (Config.Servers c ++
              [Config.mkServerConfig name host user keyPath])) 1) as [Hlen|Hlen];
    simpl; (split; [done|]); (split; [done|]); (split; [exact Hnd'|]).
  - unfold Config.selections_valid. simpl. rewrite name_in_app. simpl.
    rewrite String.eqb_refl. by rewrite orb_true_r.
  - destruct Hsel as [Hnil|[Hd Hc]].
    + rewrite Hnil in Hlen. done.
    + unfold Config.selections_valid. simpl. rewrite !name_in_app, Hd, Hc. done.
Qed.

Lemma AddServer_fresh_name_witness :
  let c := Config.mkConfig [Config.mkServerConfig "default" "c1.local:22"
                                                  "c1user" "~/.ssh/id_rsa"]
                           "default" "default" in
  Config.name_in (Config.Servers c) "prod" = false ∧
  Config.names_distinct c ∧
  (Config.Servers c = [] ∨ Config.selections_valid c) ∧
  Config.Name <$> Config.Servers
     (Config.AddServer c "prod" "example.com:22" "root" "~/.ssh/id_rsa"
                       (Some "disk full")).1
    = ["default"; "prod"] ∧
  (Config.AddServer c "prod" "example.com:22" "root" "~/.ssh/id_rsa"
                    (Some "disk full")).2
    = Some (Config.SaveFailed "disk full").
Proof.
  intros c.
  assert (Config.name_in (Config.Servers c) "prod" = false) as Hfresh
    by reflexivity.
  assert (Config.names_distinct c) as Hnd by apply NoDup_singleton.
  assert (Config.Servers c = [] ∨ Config.selections_valid c) as Hsel
    by (right; split; reflexivity).
  split; [exact Hfresh|]. split; [exact Hnd|]. split; [exact Hsel|].
  destruct (AddServer_fresh_name c "prod" "example.com:22" "root" "~/.ssh/id_rsa"
              (Some "disk full") Hfresh Hnd Hsel) as (Hs & He & _ & _).
  split; [by rewrite Hs|exact He].
Defined.

(** X25: [RemoveServer] never removes the default server. On a
    configuration with distinct names whose selections name servers,
    after [RemoveServer name] a server of that name is left exactly when it
    is the default one (then the call is refused); names stay distinct and
    both selections still name servers, whether or not saving fails. *)
Theorem RemoveServer_keeps_default
    (c : Config.Config) (name : string) (saveErr : option string)
    (Hnd : Config.names_distinct c)
    (Hsel : Config.selections_valid c) :
  let c' := (Config.RemoveServer c name saveErr).1 in
  (Config.name_in (Config.Servers c') name = true ↔
   name = Config.DefaultServer c) ∧
  ((Config.RemoveServer c name saveErr).2 = Some Config.CannotRemoveDefault ↔
   name = Config.DefaultServer c) ∧
  Config.names_distinct c' ∧
  Config.selections_valid c' ∧
  Config.DefaultServer c' = Config.DefaultServer c.
Proof.
  intros c'. subst c'. unfold Config.RemoveServer.
  destruct Hsel as [Hd Hc].
  destruct (String.eqb_spec name (Config.DefaultServer c)) as [->|Hne]; simpl.
  - repeat split; done.
  - destruct (Config.remove_first (Config.Servers c) name) as [servers|] eqn:Hr;
      simpl.
    + destruct (remove_first_spec _ _ _ Hr) as (Hlen & Hother & Hnd').
      destruct (Hnd' Hnd) as [Hnd2 Hout].
      split; [by rewrite Hout|].
      split; [by destruct saveErr|].
      split; [done|]. split; [|done].
      unfold Config.selections_valid. simpl.
      rewrite Hother by done. split; [done|].
      destruct (String.eqb_spec (Config.CurrentServer c) name) as [Hcn|Hcn].
      * by rewrite Hother.
      * by rewrite Hother.
    + apply remove_first_None in Hr. split; [by rewrite Hr|].
      split; [done|]. repeat split; done.
Qed.

Lemma RemoveServer_keeps_default_witness :
  let c := Config.mkConfig
             [Config.mkServerConfig "default" "c1.local:22" "c1user" "~/.ssh/id_rsa";
              Config.mkServerConfig "prod" "example.com:22" "root" "~/.ssh/id_rsa"]
             "prod" "default" in
  Config.names_distinct c ∧ Config.selections_valid c ∧
  (Config.RemoveServer c "default" None).2 = Some Config.CannotRemoveDefault ∧
  Config.name_in (Config.Servers (Config.RemoveServer c "prod" None).1) "prod"
    = false ∧
  Config.CurrentServer (Config.RemoveServer c "prod" None).1 = "default".
Proof.
  intros c.
  assert (Config.names_distinct c) as Hnd.
  { unfold Config.names_distinct. simpl. apply NoDup_cons.
    split; [|apply NoDup_singleton]. rewrite list_elem_of_singleton. discriminate. }
  assert (Config.selections_valid c) as Hsel by (split; reflexivity).
  split; [exact Hnd|]. split; [exact Hsel|].
  destruct (RemoveServer_keeps_default c "default" None Hnd Hsel)
    as (_ & Herr & _).
  split; [by apply Herr|]. split; reflexivity.
Defined.



(** ** ssh.go: [parseLocalPorts] *)

Example Fields_values :
  Fields "  sshd   1234 root " = ["sshd"; "1234"; "root"] ∧
  Fields "" = [] ∧ Fields "   " = [] ∧
  Fields (String "a" (String "009" (String "b" (String "010" "c")))) = ["a"; "b"; "c"] ∧
  Fields (String "a" (String "194" (String "160" "b"))) = ["a"; "b"] ∧
  Fields (String "a" (String "160" "b")) = [String "a" (String "160" "b")].
Proof. vm_compute. repeat split. Qed.

Example parseLocalPorts_lsof :
  parseLocalPorts
    ("COMMAND  PID USER   FD   TYPE DEVICE SIZE/OFF NODE NAME" +:+ String "010"
     ("sshd    1234 root    3u  IPv4  12345      0t0  TCP *:22 (LISTEN)" +:+ String "010"
     ("node    2345 me     21u  IPv4  23456      0t0  TCP 127.0.0.1:3000 (LISTEN)" +:+ String "010"
     ("node    2345 me     22u  IPv6  23457      0t0  TCP [::1]:3000 (LISTEN)" +:+ String "010"
     ("curl    3456 me      5u  IPv4  34567      0t0  TCP 10.0.0.2:51000->10.0.0.3:443 (ESTABLISHED)" +:+ String "010" "")))))
  = ["22"; "3000"; ""].
Proof. vm_compute. reflexivity. Qed.

Section FieldsFacts.

Ltac split_byte_tests :=
  repeat match goal with
         | |- context [Nat.eqb (nat_of_ascii ?c) ?k] =>
             is_var c; destruct (Nat.eqb (nat_of_ascii c) k)
         | |- context [Nat.leb ?k (nat_of_ascii ?c)] =>
             is_var c; destruct (Nat.leb k (nat_of_ascii c))
         | |- context [Nat.leb (nat_of_ascii ?c) ?k] =>
             is_var c; destruct (Nat.leb (nat_of_ascii c) k)
         end.

Lemma is_space2_second_space c1 : is_space2 c1 " " = false.
Proof.
  unfold is_space2. change (nat_of_ascii " ") with 32%nat.
  split_byte_tests; reflexivity.
Qed.

Lemma is_space3_second_space c1 c3 : is_space3 c1 " " c3 = false.
Proof.
  unfold is_space3. change (nat_of_ascii " ") with 32%nat. cbv zeta.
  split_byte_tests; reflexivity.
Qed.

Lemma is_space3_third_space c1 c2 : is_space3 c1 c2 " " = false.
Proof.
  unfold is_space3. change (nat_of_ascii " ") with 32%nat. cbv zeta.
  split_byte_tests; reflexivity.
Qed.

Lemma append_cons c s r : String c s +:+ r = String c (s +:+ r).
Proof. reflexivity. Qed.

Lemma append_nil_l r : "" +:+ r = r.
Proof. reflexivity. Qed.

Lemma space_width_before_space u r :
  u ≠ "" -> space_width u = 0%nat ->
  space_width (u +:+ String " " r) = 0%nat.
Proof.
  intros Hne Hu. destruct u as [|c1 [|c2 [|c3 u']]]; [done|..];
    rewrite ?append_cons, ?append_nil_l; cbn [space_width] in *.
  - destruct (is_ascii_space c1); [done|].
    rewrite is_space2_second_space.
    destruct r; [done|]. by rewrite is_space3_second_space.
  - destruct (is_ascii_space c1); [done|].
    destruct (is_space2 c1 c2); [done|].
    by rewrite is_space3_third_space.
  - done.
Qed.

Lemma append_empty_r s : s +:+ "" = s.
Proof. induction s as [|c s IH]; [done|]. by rewrite append_cons, IH. Qed.

Lemma append_assoc s1 s2 s3 : (s1 +:+ s2) +:+ s3 = s1 +:+ (s2 +:+ s3).
Proof. induction s1 as [|c s IH]; [done|]. by rewrite !append_cons, IH. Qed.

(** A word in front of a space, or at the end, is read into the field. *)
Lemma Fields_go_word w cur r :
  no_space w = true -> (r = "" ∨ ∃ r', r = String " " r') ->
  Fields_go (w +:+ r) 0 cur = Fields_go r 0 (cur +:+ w).
Proof.
  revert cur. induction w as [|c w IH]; intros cur Hw Hr.
  - simpl. by rewrite append_empty_r.
  - cbn [no_space] in Hw. apply andb_true_iff in Hw as [Hc Hw].
    apply Nat.eqb_eq in Hc.
    assert (space_width (String c w +:+ r) = 0%nat) as Hsw.
    { destruct Hr as [->|[r' ->]].
      - by rewrite append_empty_r.
      - by apply space_width_before_space. }
    change (String c w +:+ r) with (String c (w +:+ r)) in *.
    cbn [Fields_go]. rewrite Hsw. rewrite IH by done.
    by rewrite append_assoc.
Qed.

Lemma Fields_go_spaces n r cur :
  Fields_go (spaces (S n) +:+ r) 0 cur = emit_field cur ++ Fields_go r 0 "".
Proof.
  revert cur. induction n as [|n IH]; intros cur.
  - reflexivity.
  - change (spaces (S (S n)) +:+ r) with (String " " (spaces (S n) +:+ r)).
    cbn [Fields_go]. change (space_width (String " " (spaces (S n) +:+ r))) with 1%nat.
    cbv iota. rewrite IH. simpl. done.
Qed.

Lemma emit_field_word w : is_word w = true -> emit_field w = [w].
Proof.
  unfold is_word. rewrite andb_true_iff, negb_true_iff.
  intros [Hne _]. by destruct w.
Qed.

Lemma Fields_spaced_line words last :
  Forall (fun wg => is_word wg.1 = true) words -> is_word last = true ->
  Fields (spaced_line words last) = words.*1 ++ [last].
Proof.
  unfold Fields. intros Hwords Hlast.
  induction Hwords as [|[w gap] rest Hw Hrest IH].
  - simpl. rewrite <- (append_empty_r last) at 1.
    rewrite Fields_go_word; [|by apply andb_true_iff in Hlast as [_ ?]|by left].
    simpl. by apply emit_field_word.
  - cbn [spaced_line fmap list_fmap fst]. simpl in Hw.
    rewrite Fields_go_word;
      [|by apply andb_true_iff in Hw as [_ ?]|right; by eexists].
    rewrite Fields_go_spaces. simpl append. rewrite emit_field_word by done.
    simpl. by rewrite IH.
Qed.

Lemma no_byte_app c s1 s2 :
  no_byte c (s1 +:+ s2) = no_byte c s1 && no_byte c s2.
Proof.
  unfold no_byte. induction s1 as [|a s1 IH]; [done|].
  rewrite append_cons. simpl. by rewrite IH, andb_assoc.
Qed.

Lemma no_space_no_newline w : no_space w = true -> no_byte "010" w = true.
Proof.
  unfold no_byte. induction w as [|c w IH]; [done|].
  cbn [no_space all_bytes space_width]. rewrite !andb_true_iff.
  intros [Hc Hw]. split; [|by apply IH].
  apply negb_true_iff. destruct (Ascii.eqb_spec c "010") as [->|]; [|done].
  by vm_compute in Hc.
Qed.

Lemma spaces_no_newline n : no_byte "010" (spaces n) = true.
Proof. induction n as [|n IH]; [done|]. exact IH. Qed.

Lemma spaced_line_no_newline words last :
  Forall (fun wg => is_word wg.1 = true) words -> is_word last = true ->
  no_byte "010" (spaced_line words last) = true.
Proof.
  intros Hwords Hlast. induction Hwords as [|[w gap] rest Hw Hrest IH].
  - simpl. apply no_space_no_newline. by apply andb_true_iff in Hlast as [_ ?].
  - cbn [spaced_line]. rewrite !no_byte_app, IH, spaces_no_newline.
    rewrite no_space_no_newline; [done|].
    simpl in Hw. by apply andb_true_iff in Hw as [_ ?].
Qed.

Lemma foldl_append_lines (f : string -> list string) lines acc :
  foldl (fun ports line => ports ++ f line) acc lines
  = acc ++ foldl (fun ports line => ports ++ f line) [] lines.
Proof.
  revert acc. induction lines as [|l lines IH]; intros acc; simpl.
  - by rewrite app_nil_r.
  - rewrite IH. rewrite (IH (f l)). by rewrite app_assoc.
Qed.

Lemma parseLocalPorts_first_line line rest :
  no_byte "010" line = true ->
  parseLocalPorts (line +:+ String "010" rest)
  = parseLocalPorts_line line ++ parseLocalPorts rest.
Proof.
  intros Hline. unfold parseLocalPorts. rewrite Split_at_first by done.
  simpl. by rewrite foldl_append_lines.
Qed.

End FieldsFacts.

(** X27: a line of [lsof] made of at least nine words before its last
    word, separated by runs of spaces, that contains "LISTEN": the port that
    [parseLocalPorts] reports for it is the text between the first and the
    second colon of the ninth field (for "*:22" the port "22", for
    "[::1]:3000" the empty string), and nothing when that field has no
    colon; the lines after it are read in the same way. *)
Theorem parseLocalPorts_listen_line
    (words : list (string * nat)) (last address rest : string) (gap : nat)
    (Hwords : Forall (fun wg => is_word wg.1 = true) words)
    (Hlast : is_word last = true)
    (Haddr : words !! 8%nat = Some (address, gap))
    (Hlisten : Contains (spaced_line words last) "LISTEN" = true) :
  parseLocalPorts (spaced_line words last +:+ String "010" rest)
  = match Split address ":"%char with
    | _ :: port :: _ => [port]
    | _ => []
    end ++ parseLocalPorts rest.
Proof.
  rewrite parseLocalPorts_first_line by by apply spaced_line_no_newline.
  f_equal. unfold parseLocalPorts_line. rewrite Hlisten.
  rewrite Fields_spaced_line by done.
  apply lookup_lt_Some in Haddr as Hlen.
  assert ((8 <? List.length (words.*1 ++ [last]))%nat = true) as ->.
  { apply Nat.ltb_lt. rewrite length_app, length_fmap. simpl. lia. }
  rewrite lookup_app_l by (rewrite length_fmap; lia).
  rewrite list_lookup_fmap, Haddr. done.
Qed.

Lemma parseLocalPorts_listen_line_witness :
  let words := [("node", 3%nat); ("2345", 0%nat); ("me", 4%nat); ("22u", 1%nat);
                ("IPv6", 1%nat); ("23457", 5%nat); ("0t0", 1%nat); ("TCP", 0%nat);
                ("[::1]:3000", 0%nat)] in
  Forall (fun wg => is_word wg.1 = true) words ∧
  is_word "(LISTEN)" = true ∧
  words !! 8%nat = Some ("[::1]:3000", 0%nat) ∧
  Contains (spaced_line words "(LISTEN)") "LISTEN" = true ∧
  spaced_line words "(LISTEN)"
    = "node    2345 me     22u  IPv6  23457      0t0  TCP [::1]:3000 (LISTEN)" ∧
  parseLocalPorts (spaced_line words "(LISTEN)" +:+ String "010" "") = [""].
Proof.
  intros words.
  assert (Forall (fun wg => is_word wg.1 = true) words) as Hwords
    by (repeat constructor).
  assert (Contains (spaced_line words "(LISTEN)") "LISTEN" = true) as Hlisten
    by (vm_compute; reflexivity).
  split; [exact Hwords|]. split; [reflexivity|]. split; [reflexivity|].
  split; [exact Hlisten|]. split; [vm_compute; reflexivity|].
  exact (parseLocalPorts_listen_line words "(LISTEN)" "[::1]:3000" "" 0
           Hwords eq_refl eq_refl Hlisten).
Defined.

(** ** docker.go: [GetLocalProcessForPort] *)

Section ProcessInfoFacts.

Lemma no_byte_cons c a s :
  no_byte c (String a s) = negb (Ascii.eqb a c) && no_byte c s.
Proof. reflexivity. Qed.

Lemma Split_tagged_line tag value rest :
  Ascii.eqb tag "010" = false -> no_byte "010" value = true ->
  Split (String tag value +:+ String "010" rest) "010"
  = String tag value :: Split rest "010".
Proof.
  intros Htag Hvalue. apply Split_at_first.
  rewrite no_byte_cons, Htag. exact Hvalue.
Qed.

End ProcessInfoFacts.

(** X28: [GetLocalProcessForPort] reads a record of [lsof -F pcun] back:
    for an output with the lines p<pid>, c<name>, u<user>, f<fd>, n<address>,
    each value non-empty and within one line, it returns the process with
    that id, name and user; its command is the content of the process's
    command-line file with every NUL byte turned into a space when that
    file can be read, and the address otherwise. *)
Theorem GetLocalProcessForPort_reads_record
    (pid name user fd address : string) (cmdline : string -> option string)
    (Hpid : pid ≠ "" ∧ no_byte "010" pid = true)
    (Hname : name ≠ "" ∧ no_byte "010" name = true)
    (Huser : user ≠ "" ∧ no_byte "010" user = true)
    (Hfd : fd ≠ "" ∧ no_byte "010" fd = true)
    (Haddress : address ≠ "" ∧ no_byte "010" address = true) :
  GetLocalProcessForPort
    (String "p" pid +:+ String "010"
       (String "c" name +:+ String "010"
          (String "u" user +:+ String "010"
             (String "f" fd +:+ String "010"
                (String "n" address +:+ String "010" "")))))
    None cmdline
  = Some {| pi_Name := name; pi_PID := pid; pi_User := user;
            pi_Command := match cmdline pid with
                          | Some cmdBytes => ReplaceAll_NUL cmdBytes
                          | None => address
                          end |}.
Proof.
  destruct Hpid as [Hpid1 Hpid2], Hname as [Hname1 Hname2],
    Huser as [Huser1 Huser2], Hfd as [Hfd1 Hfd2],
    Haddress as [Haddr1 Haddr2].
  unfold GetLocalProcessForPort.
  rewrite !Split_tagged_line by done.
  destruct pid as [|p0 pid]; [done|]. destruct name as [|n0 name]; [done|].
  destruct user as [|u0 user]; [done|]. destruct fd as [|f0 fd]; [done|].
  destruct address as [|a0 address]; [done|].
  cbn [Split List.length Nat.ltb Nat.leb foldl ProcessInfo_line].
  change (Ascii.eqb "p" "p") with true. change (Ascii.eqb "c" "p") with false.
  change (Ascii.eqb "c" "c") with true. change (Ascii.eqb "u" "p") with false.
  change (Ascii.eqb "u" "c") with false. change (Ascii.eqb "u" "u") with true.
  change (Ascii.eqb "f" "p") with false. change (Ascii.eqb "f" "c") with false.
  change (Ascii.eqb "f" "u") with false. change (Ascii.eqb "f" "n") with false.
  change (Ascii.eqb "n" "p") with false. change (Ascii.eqb "n" "c") with false.
  change (Ascii.eqb "n" "u") with false. change (Ascii.eqb "n" "n") with true.
  cbv iota. cbn [pi_PID pi_Name pi_User pi_Command].
  change (String.eqb (String p0 pid) "") with false. cbv iota.
  by destruct (cmdline (String p0 pid)).
Qed.

Lemma GetLocalProcessForPort_reads_record_witness :
  let cmdline (pid : string) :=
    if String.eqb pid "2345"
    then Some ("node" +:+ String "000" ("server.js" +:+ String "000" ""))
    else None in
  ("2345" ≠ "" ∧ no_byte "010" "2345" = true) ∧
  ("node" ≠ "" ∧ no_byte "010" "node" = true) ∧
  ("501" ≠ "" ∧ no_byte "010" "501" = true) ∧
  ("21" ≠ "" ∧ no_byte "010" "21" = true) ∧
  ("*:3000" ≠ "" ∧ no_byte "010" "*:3000" = true) ∧
  GetLocalProcessForPort
    (String "p" "2345" +:+ String "010"
       (String "c" "node" +:+ String "010"
          (String "u" "501" +:+ String "010"
             (String "f" "21" +:+ String "010"
                (String "n" "*:3000" +:+ String "010" "")))))
    None cmdline
  = Some (mkProcessInfo "node" "2345" "501" "node server.js ").
Proof.
  intros cmdline.
  assert ("2345" ≠ "" ∧ no_byte "010" "2345" = true) as Hpid by done.
  assert ("node" ≠ "" ∧ no_byte "010" "node" = true) as Hname by done.
  assert ("501" ≠ "" ∧ no_byte "010" "501" = true) as Huser by done.
  assert ("21" ≠ "" ∧ no_byte "010" "21" = true) as Hfd by done.
  assert ("*:3000" ≠ "" ∧ no_byte "010" "*:3000" = true) as Haddress by done.
  repeat (split; [done|]).
  exact (GetLocalProcessForPort_reads_record "2345" "node" "501" "21" "*:3000"
           cmdline Hpid Hname Huser Hfd Haddress).
Defined.
